(** * throttle: a memoizing wrapper with TTL expiry over an LRU cache

    Shallow embedding of [src/cache/lru.ts], [src/weakref-generic.ts] and of
    the [throttle] module, followed by the properties of the memoization
    engine that the specification states. *)

From Stdlib Require Import QArith.
From stdpp Require Import gmap strings list fin_maps pretty.

Local Open Scope string_scope.
Local Open Scope list_scope.

(** ** JavaScript numbers

    A [number] is an IEEE double.  The code only ever compares numbers
    ([<], [>], truthiness, [=== Infinity]), so the finite ones are embedded
    as the rationals they denote. *)
Inductive JsNumber : Type :=
| NaN
| PosInf
| NegInf
| Fin (q : Q).

(** [a < b]; every comparison that involves [NaN] is false. *)
Definition js_lt (a b : JsNumber) : bool :=
  match a, b with
  | NaN, _ => false
  | _, NaN => false
  | PosInf, _ => false
  | _, NegInf => false
  | NegInf, _ => true
  | Fin _, PosInf => true
  | Fin x, Fin y => negb (Qle_bool y x)
  end.

(** [a > b] is [b < a]. *)
Definition js_gt (a b : JsNumber) : bool := js_lt b a.

(** ToBoolean on a number: [0], [-0] and [NaN] are falsy. *)
Definition num_truthy (n : JsNumber) : bool :=
  match n with
  | NaN => false
  | Fin q => negb (Qeq_bool q 0)
  | _ => true
  end.

Definition num_of_Z (z : Z) : JsNumber := Fin (inject_Z z).
Definition num_of_nat (n : nat) : JsNumber := num_of_Z (Z.of_nat n).

(** [n === Infinity] *)
Definition is_Infinity (n : JsNumber) : bool :=
  match n with PosInf => true | _ => false end.

(** ** Cache keys: [type CacheKey = string | number]

    Numeric keys come from the structural hash, an integer. *)
Inductive CacheKey : Type :=
| KStr (s : string)
| KNum (n : Z).

#[global] Instance CacheKey_eq_dec : EqDecision CacheKey.
Proof. solve_decision. Defined.

#[global] Instance CacheKey_countable : Countable CacheKey :=
  inj_countable'
    (fun k => match k with KStr s => inl s | KNum n => inr n end)
    (fun s => match s with inl s => KStr s | inr n => KNum n end)
    (fun k => match k with KStr _ => eq_refl | KNum _ => eq_refl end).

(** ToBoolean on a key: the empty string and [0] are falsy. *)
Definition key_truthy (k : CacheKey) : bool :=
  match k with
  | KStr s => negb (bool_decide (s = ""))
  | KNum n => negb (bool_decide (n = 0%Z))
  end.

(** ** [src/cache/lru.ts]

    [LruCache<Key, Value>] with [Key] taken at [CacheKey], the key type the
    module uses it with; [Value] stays generic. *)
Section lru.
Context {V : Type}.

Record LruCache : Type := mkLru {
  storage : gmap CacheKey V;   (* #storage *)
  queue : list CacheKey;       (* #queue, oldest first *)
  maxSize : JsNumber           (* #maxSize *)
}.

(** [constructor(options = {})]: [options.maxSize || Infinity]. *)
Definition lru_new (options_maxSize : option JsNumber) : LruCache :=
  {| storage := ∅;
     queue := [];
     maxSize := match options_maxSize with
                | Some n => if num_truthy n then n else PosInf
                | None => PosInf
                end |}.

(** [Array.prototype.indexOf]; [None] stands for [-1]. *)
Fixpoint indexOf (key : CacheKey) (q : list CacheKey) : option nat :=
  match q with
  | [] => None
  | k :: r => if decide (k = key) then Some 0 else S <$> indexOf key r
  end.

(** [#hit] *)
Definition lru_hit (key : CacheKey) (c : LruCache) : LruCache :=
  match indexOf key (queue c) with
  | Some idx =>
      (* splice(idx, 1); push(key) *)
      {| storage := storage c;
         queue := delete idx (queue c) ++ [key];
         maxSize := maxSize c |}
  | None =>
      let q := queue c ++ [key] in
      if js_gt (num_of_nat (length q)) (maxSize c) then
        match q with
        | evictKey :: q' =>
            {| storage := if key_truthy evictKey
                          then delete evictKey (storage c)
                          else storage c;
               queue := q';
               maxSize := maxSize c |}
        | [] => {| storage := storage c; queue := []; maxSize := maxSize c |}
        end
      else {| storage := storage c; queue := q; maxSize := maxSize c |}
  end.

(** [#evict] *)
Definition lru_evict (key : CacheKey) (c : LruCache) : LruCache :=
  match indexOf key (queue c) with
  | Some idx =>
      {| storage := storage c;
         queue := delete idx (queue c);
         maxSize := maxSize c |}
  | None => c
  end.

(** [has(key)] *)
Definition lru_has (key : CacheKey) (c : LruCache) : bool :=
  bool_decide (is_Some (storage c !! key)).

(** [get(key)]: the value read and the cache after the touch. *)
Definition lru_get (key : CacheKey) (c : LruCache) : option V * LruCache :=
  let c' := if lru_has key c then lru_hit key c else c in
  (storage c' !! key, c').

(** [set(key, value)] *)
Definition lru_set (key : CacheKey) (value : V) (c : LruCache) : LruCache :=
  let c' := lru_hit key c in
  {| storage := <[key := value]> (storage c');
     queue := queue c';
     maxSize := maxSize c' |}.

(** [delete(key)]: whether the key was stored, and the cache after. *)
Definition lru_delete (key : CacheKey) (c : LruCache) : bool * LruCache :=
  let c' := lru_evict key c in
  (bool_decide (is_Some (storage c' !! key)),
   {| storage := delete key (storage c');
      queue := queue c';
      maxSize := maxSize c' |}).

(** [clear()] *)
Definition lru_clear (c : LruCache) : LruCache :=
  {| storage := ∅; queue := []; maxSize := maxSize c |}.

(** [set] called once per pair, in order. *)
Definition lru_set_all (kvs : list (CacheKey * V)) (c : LruCache) : LruCache :=
  foldl (fun c kv => lru_set kv.1 kv.2 c) c kvs.
End lru.

Arguments LruCache V : clear implicits.


(** ** JavaScript values

    [VObj] is a plain data object and [VFun] a function, named by an
    identifier; [VPromise] is a native promise, the only kind of value of
    this model that carries [then] and [catch]. *)
#[warnings="-register-all"]
Inductive JsValue : Type :=
| VUndefined
| VNull
| VBool (b : bool)
| VNum (n : JsNumber)
| VStr (s : string)
| VFun (f : nat)
| VArr (elems : list JsValue)
| VObj (props : list (string * JsValue))
| VPromise (p : nat).

(** The operators the module relies on. *)
Definition typeof (v : JsValue) : string :=
  match v with
  | VUndefined => "undefined"
  | VNull => "object"
  | VBool _ => "boolean"
  | VNum _ => "number"
  | VStr _ => "string"
  | VFun _ => "function"
  | VArr _ | VObj _ | VPromise _ => "object"
  end.

(** ToBoolean *)
Definition js_truthy (v : JsValue) : bool :=
  match v with
  | VUndefined | VNull => false
  | VBool b => b
  | VNum n => num_truthy n
  | VStr s => negb (bool_decide (s = ""))
  | VFun _ | VArr _ | VObj _ | VPromise _ => true
  end.

(** [v === undefined] *)
Definition strict_eq_undefined (v : JsValue) : bool :=
  match v with VUndefined => true | _ => false end.

(** The values the specification calls primitive (non-object). *)
Definition is_primitive (v : JsValue) : bool :=
  match v with
  | VUndefined | VNull | VBool _ | VNum _ | VStr _ => true
  | VFun _ | VArr _ | VObj _ | VPromise _ => false
  end.

(** What the module takes from its host and from [hash-it]. *)
Class Host : Type := {
  hash : JsValue -> Z;                  (* import hash from "hash-it" *)
  numberToString : JsNumber -> string;  (* Number::toString *)
  functionToString : nat -> string      (* Function.prototype.toString *)
}.

Section resolver_key.
Context `{Host}.

(** [String(value)] *)
Fixpoint js_String (v : JsValue) : string :=
  match v with
  | VUndefined => "undefined"
  | VNull => "null"
  | VBool true => "true"
  | VBool false => "false"
  | VNum n => numberToString n
  | VStr s => s
  | VFun f => functionToString f
  | VArr elems =>
      (fix join (l : list JsValue) : string :=
         match l with
         | [] => ""
         | x :: r =>
             let sx := match x with
                       | VUndefined | VNull => ""
                       | _ => js_String x
                       end in
             match r with
             | [] => sx
             | _ :: _ => sx +:+ "," +:+ join r
             end
         end) elems
  | VObj _ => "[object Object]"
  | VPromise _ => "[object Promise]"
  end.

(** [toResolverKey] *)
Fixpoint toResolverKey (value : JsValue) : CacheKey :=
  match value with
  | VArr [x] => toResolverKey x
  | _ =>
      if negb (bool_decide (typeof value = "object")) || negb (js_truthy value)
      then KStr (js_String value)
      else KNum (hash value)
  end.

(** [defaultResolver]: the argument list itself. *)
Definition defaultResolver (args : list JsValue) : JsValue := VArr args.
End resolver_key.

(** ** [src/weakref-generic.ts] *)

(** A weak reference is observed through [deref()], which yields the target
    or [undefined] once the collector has reclaimed it. *)
Record WeakRef (T : Type) : Type := mkWeakRef { deref : option T }.
Arguments mkWeakRef {T} _.
Arguments deref {T} _.

(** [typeof] of what [deref()] returns ([T extends object]). *)
Definition typeof_deref {T : Type} (o : option T) : string :=
  match o with
  | Some _ => "object"
  | None => typeof VUndefined
  end.

Definition makeWeakRef {T : Type} (v : T) : WeakRef T := mkWeakRef (Some v).

Definition getRealRef {T : Type} (v : WeakRef T) : option T := deref v.

(** [typeof v.deref() === undefined]: a string compared with [undefined]. *)
Definition isRealRefDead {T : Type} (v : WeakRef T) : bool :=
  strict_eq_undefined (VStr (typeof_deref (deref v))).

(** What the specification asks of [isDead]: the target has been reclaimed. *)
Definition spec_isDead {T : Type} (v : WeakRef T) : bool :=
  match deref v with
  | Some _ => false
  | None => true
  end.

(** ** The [throttle] module *)

(** [type ICache<Key, Value>]: the five [Map] methods a cache must offer.
    Methods that mutate return the cache after the call. *)
Class ICache (V C : Type) : Type := {
  ic_clear : C -> C;
  ic_delete : CacheKey -> C -> bool * C;
  ic_get : CacheKey -> C -> option V * C;
  ic_has : CacheKey -> C -> bool;
  ic_set : CacheKey -> V -> C -> C
}.

#[global] Instance LruCache_ICache {V : Type} : ICache V (LruCache V) := {|
  ic_clear := lru_clear;
  ic_delete := lru_delete;
  ic_get := lru_get;
  ic_has := lru_has;
  ic_set := lru_set
|}.

(** The built-in [Map]. *)
#[global] Instance Map_ICache {V : Type} : ICache V (gmap CacheKey V) := {|
  ic_clear := fun _ => ∅;
  ic_delete := fun k m => (bool_decide (is_Some (m !! k)), delete k m);
  ic_get := fun k m => (m !! k, m);
  ic_has := fun k m => bool_decide (is_Some (m !! k));
  ic_set := fun k v m => <[k := v]> m
|}.

(** [type CacheItem]: [clear] and [ttl] are the two closures of the
    invocation scope [item_scope], which holds their [key] and [timer]. *)
Record CacheItem : Type := mkItem {
  item_key : CacheKey;
  item_value : JsValue;
  item_scope : nat
}.

(** The caches [getCache] can hand out. *)
Inductive Cache : Type :=
| LruC (c : LruCache CacheItem)
| MapC (m : gmap CacheKey CacheItem).

#[global] Instance Cache_ICache : ICache CacheItem Cache := {|
  ic_clear := fun c =>
    match c with
    | LruC l => LruC (lru_clear l)
    | MapC m => MapC ∅
    end;
  ic_delete := fun k c =>
    match c with
    | LruC l => (fst (lru_delete k l), LruC (snd (lru_delete k l)))
    | MapC m => (bool_decide (is_Some (m !! k)), MapC (delete k m))
    end;
  ic_get := fun k c =>
    match c with
    | LruC l => (fst (lru_get k l), LruC (snd (lru_get k l)))
    | MapC m => (m !! k, MapC m)
    end;
  ic_has := fun k c =>
    match c with
    | LruC l => lru_has k l
    | MapC m => bool_decide (is_Some (m !! k))
    end;
  ic_set := fun k v c =>
    match c with
    | LruC l => LruC (lru_set k v l)
    | MapC m => MapC (<[k := v]> m)
    end
|}.

(** The entry stored under a key, read without touching recency. *)
Definition cache_lookup (k : CacheKey) (c : Cache) : option CacheItem :=
  match c with
  | LruC l => storage l !! k
  | MapC m => m !! k
  end.

(** [type NewTimeoutFunction = (newTimeout: number | false) => void] *)
Inductive NewTimeout : Type :=
| TNumber (n : JsNumber)
| TFalse.

(** What an [onCached] observer does with the item it receives: a sequence
    of calls of the item's own operations. *)
Inductive ItemOp : Type :=
| OpClear
| OpTtl (t : NewTimeout).

(** [type ThrottleOptions] *)
Record ThrottleOptions : Type := mkOptions {
  o_resolver : option (list JsValue -> JsValue);
  o_cache : option Cache;
  o_onCached : option (CacheItem -> list ItemOp);
  o_maxSize : option JsNumber;
  o_rejectFailedPromise : option bool
}.

(** [options = {}] *)
Definition no_options : ThrottleOptions :=
  mkOptions None None None None None.

(** A completed evaluation: a value, or a thrown exception. *)
Inductive JsError : Type :=
| TypeError                 (* reading a property of [undefined] *)
| Thrown (v : JsValue).     (* whatever the callee threw *)

Inductive Completion (A : Type) : Type :=
| Normal (a : A)
| Throw (e : JsError).
Arguments Normal {A} _.
Arguments Throw {A} _.

(** The arguments of [throttle(func, timeout, options)].  The callee is
    opaque; its outcome may depend on the calls it has received so far. *)
Record Config : Type := mkConfig {
  func : list (list JsValue) -> list JsValue -> Completion JsValue;
  timeout : option JsNumber;
  options : ThrottleOptions
}.

(** A timer handle returned by [setTimeout]. *)
Record Timeout : Type := mkTimeout {
  delay : JsNumber;
  unrefd : bool
}.

(** The variables of one populating invocation that [clear] and
    [applyTimeout] close over. *)
Record Scope : Type := mkScope {
  s_key : CacheKey;
  s_timer : option Timeout   (* [null] or the pending handle *)
}.

(** Everything one [throttle(...)] instance can reach or be reached by.
    The wrapper and its methods hold [cache] strongly, so they only run
    while [collected] is [false]; timers and promise handlers see the cache
    through [cacheRef] alone and may run after it has been reclaimed. *)
Record State : Type := mkState {
  cache : Cache;                    (* the object [cache] and [cacheRef] name *)
  collected : bool;                 (* the collector has reclaimed it *)
  scopes : list Scope;              (* populating invocations so far *)
  catchers : list (nat * nat);      (* [value.catch(item.clear)]: promise, scope *)
  rejections : gmap nat JsValue;    (* promises that have failed, with the reason *)
  calls : list (list JsValue)       (* argument lists the callee has received *)
}.

Definition set_cache (c : Cache) (st : State) : State :=
  mkState c (collected st) (scopes st) (catchers st) (rejections st) (calls st).
Definition set_scopes (s : list Scope) (st : State) : State :=
  mkState (cache st) (collected st) s (catchers st) (rejections st) (calls st).
Definition set_catchers (h : list (nat * nat)) (st : State) : State :=
  mkState (cache st) (collected st) (scopes st) h (rejections st) (calls st).
Definition set_calls (l : list (list JsValue)) (st : State) : State :=
  mkState (cache st) (collected st) (scopes st) (catchers st) (rejections st) l.

(** The collector reclaims the cache once the wrapper is unreachable. *)
Definition collect (st : State) : State :=
  mkState (cache st) true (scopes st) (catchers st) (rejections st) (calls st).

(** [cacheRef] as the timers see it. *)
Definition cacheRef (st : State) : WeakRef Cache :=
  mkWeakRef (if collected st then None else Some (cache st)).

(** Computations that read and write the state and may throw. *)
Definition M (A : Type) : Type := State -> Completion A * State.

Definition ret {A : Type} (a : A) : M A := fun st => (Normal a, st).
Definition throw {A : Type} (e : JsError) : M A := fun st => (Throw e, st).
Definition bind {A B : Type} (m : M A) (k : A -> M B) : M B :=
  fun st =>
    match m st with
    | (Normal a, st') => k a st'
    | (Throw e, st') => (Throw e, st')
    end.

Notation "'do' x <- m ; k" := (bind m (fun x => k))
  (at level 10, x name, m at level 100, k at level 200).
Notation "m ;; k" := (bind m (fun _ => k))
  (at level 100, k at level 200, right associativity).

(** Run a computation on each element, left to right. *)
Fixpoint for_each {A : Type} (f : A -> M unit) (l : list A) : M unit :=
  match l with
  | [] => ret tt
  | x :: r => f x ;; for_each f r
  end.

(** [isPromise(v)] *)
Definition isPromise (v : JsValue) : bool :=
  match v with
  | VPromise _ => true     (* v && isFunction(v.then) && isFunction(v.catch) *)
  | _ => false
  end.

(** [getCache] *)
Definition getCache (options : ThrottleOptions) : Cache :=
  match o_cache options with
  | Some c => c
  | None =>
      match o_maxSize options with
      | Some n =>                                   (* isNumber(options.maxSize) *)
          if js_lt n PosInf then LruC (lru_new (Some n)) else MapC ∅
      | None => MapC ∅
      end
  end.

(** State just after [throttle(func, timeout, options)] returned. *)
Definition init (cfg : Config) : State :=
  mkState (getCache (options cfg)) false [] [] ∅ [].

Section engine.
Context `{Host}.
Variable cfg : Config.

(** [var resolver = options.resolver || defaultResolver] *)
Definition resolver : list JsValue -> JsValue :=
  match o_resolver (options cfg) with
  | Some r => r
  | None => defaultResolver
  end.

(** [toResolverKey(resolver(...args))] *)
Definition key_of (args : list JsValue) : CacheKey :=
  toResolverKey (resolver args).

(** The methods of [cache], called through the wrapper's own reference. *)
Definition cache_has (key : CacheKey) : M bool :=
  fun st => (Normal (ic_has key (cache st)), st).
Definition cache_get (key : CacheKey) : M (option CacheItem) :=
  fun st =>
    let r := ic_get key (cache st) in
    (Normal (fst r), set_cache (snd r) st).
Definition cache_set (key : CacheKey) (item : CacheItem) : M unit :=
  fun st => (Normal tt, set_cache (ic_set key item (cache st)) st).
Definition cache_delete (key : CacheKey) : M unit :=
  fun st => (Normal tt, set_cache (snd (ic_delete key (cache st))) st).
Definition cache_clear : M unit :=
  fun st => (Normal tt, set_cache (ic_clear (cache st)) st).

(** [func(...args)] *)
Definition call_func (args : list JsValue) : M JsValue :=
  fun st => (func cfg (calls st) args, set_calls (calls st ++ [args]) st).

(** Entering the populating branch: a fresh [key] and [timer = null]. *)
Definition new_scope (key : CacheKey) : M nat :=
  fun st =>
    (Normal (length (scopes st)),
     set_scopes (scopes st ++ [mkScope key None]) st).

(** [timer = t] in scope [env] *)
Definition set_timer (env : nat) (t : option Timeout) : M unit :=
  fun st =>
    match scopes st !! env with
    | Some sc =>
        (Normal tt, set_scopes (<[env := mkScope (s_key sc) t]> (scopes st)) st)
    | None => (Normal tt, st)
    end.

(** [cancelTimeout] *)
Definition cancelTimeout (env : nat) : M unit :=
  fun st =>
    match scopes st !! env with
    | Some sc =>
        match s_timer sc with
        | Some _ => set_timer env None st     (* clearTimeout(timer); timer = null *)
        | None => (Normal tt, st)
        end
    | None => (Normal tt, st)
    end.

(** [clear], the closure stored in the item and handed to [setTimeout]. *)
Definition clear (env : nat) : M unit :=
  cancelTimeout env ;;
  fun st =>
    if negb (isRealRefDead (cacheRef st)) then
      match getRealRef (cacheRef st), scopes st !! env with
      | Some realCache, Some sc =>
          (* realCache is the object [cache] names *)
          (Normal tt, set_cache (snd (ic_delete (s_key sc) realCache)) st)
      | _, _ => (Normal tt, st)
      end
    else (Normal tt, st).

(** [applyTimeout], the item's [ttl] *)
Definition applyTimeout (env : nat) (newTimeout : NewTimeout) : M unit :=
  cancelTimeout env ;;
  match newTimeout with
  | TFalse => ret tt
  | TNumber n =>
      if is_Infinity n then ret tt
      else
        (* timer = setTimeout(clear, newTimeout); timer.unref() *)
        set_timer env (Some (mkTimeout n true))
  end.

(** The host runs the callback of a timer that is still pending; a
    cancelled timer never runs. *)
Definition fire_timer (env : nat) : M unit :=
  fun st =>
    match scopes st !! env with
    | Some sc =>
        match s_timer sc with
        | Some _ => clear env st
        | None => (Normal tt, st)
        end
    | None => (Normal tt, st)
    end.

(** [rejectFailedPromise] *)
Definition rejectFailedPromise (item : CacheItem) : M unit :=
  match item_value item with
  | VPromise p =>
      (* value.catch(item.clear) *)
      fun st => (Normal tt, set_catchers (catchers st ++ [(p, item_scope item)]) st)
  | _ => ret tt
  end.

(** One operation of an observer on the item it was given. *)
Definition run_op (item : CacheItem) (op : ItemOp) : M unit :=
  match op with
  | OpClear => clear (item_scope item)
  | OpTtl t => applyTimeout (item_scope item) t
  end.

(** Calling [options.onCached] *)
Definition call_observer (obs : CacheItem -> list ItemOp) (item : CacheItem) : M unit :=
  for_each (run_op item) (obs item).

(** [getOnCached] *)
Definition getOnCached (item : CacheItem) : M unit :=
  match o_rejectFailedPromise (options cfg), o_onCached (options cfg) with
  | Some false, Some obs => call_observer obs item
  | Some false, None => ret tt                      (* noop *)
  | _, None => rejectFailedPromise item
  | _, Some obs => rejectFailedPromise item ;; call_observer obs item
  end.

(** [!timeout || timeout < 1] *)
Definition no_timeout : bool :=
  match timeout cfg with
  | None => true
  | Some t => negb (num_truthy t) || js_lt t (num_of_nat 1)
  end.

(** [cache.get(key)!.value] *)
Definition read_value (key : CacheKey) : M JsValue :=
  do item <- cache_get key;
  match item with
  | Some i => ret (item_value i)
  | None => throw TypeError
  end.

(** The populating branch, [timeout] being the number [t]. *)
Definition populate (t : JsNumber) (key : CacheKey) (args : list JsValue) : M JsValue :=
  do value <- call_func args;
  do env <- new_scope key;
  let cacheItem := mkItem key value env in
  cache_set key cacheItem ;;
  applyTimeout env (TNumber t) ;;
  getOnCached cacheItem ;;
  read_value key.

(** The wrapper that [throttle] returns. *)
Definition invoke (args : list JsValue) : M JsValue :=
  match timeout cfg with
  | None => call_func args
  | Some t =>
      if negb (num_truthy t) || js_lt t (num_of_nat 1) then call_func args
      else
        let key := key_of args in
        do present <- cache_has key;
        if negb present then populate t key args
        else read_value key
  end.


(** [clearCache] *)
Definition clearCache (args : list JsValue) : M unit :=
  if bool_decide (length args < 1)%nat then cache_clear
  else cache_delete (key_of args).


(** Calling the wrapper once per argument list, each caller catching
    whatever its call throws. *)
Fixpoint invoke_all (calls_args : list (list JsValue)) (st : State) : State :=
  match calls_args with
  | [] => st
  | args :: r => invoke_all r (snd (invoke args st))
  end.
End engine.

(** ** Conditions the properties are stated under *)

(** The cache can hold at least one entry: a [Map], or an [LruCache] whose
    [#maxSize] is not below 1. *)
Definition cache_has_room (c : Cache) : bool :=
  match c with
  | LruC l => negb (js_lt (maxSize l) (num_of_nat 1))
  | MapC _ => true
  end.


(** The [catch] registration [getOnCached] makes for an item: one handler
    for a promise unless [rejectFailedPromise] is [false]. *)
Definition attached (cfg : Config) (item : CacheItem) : list (nat * nat) :=
  match o_rejectFailedPromise (options cfg) with
  | Some false => []
  | _ =>
      match item_value item with
      | VPromise p => [(p, item_scope item)]
      | _ => []
      end
  end.

(** No eviction can happen: a [Map], or an [LruCache] bounded by
    [Infinity]. *)
Definition unbounded (c : Cache) : Prop :=
  match c with
  | LruC l => maxSize l = PosInf
  | MapC _ => True
  end.

(** The handle [applyTimeout(t)] leaves in [timer]. *)
Definition timer_for (t : JsNumber) : option Timeout :=
  if is_Infinity t then None else Some (mkTimeout t true).

(** ** Test fixtures *)

(** A host to run examples on. *)
Definition test_host : Host := {|
  hash := fun v =>
    match v with
    | VArr l => Z.of_nat (length l)
    | VObj props => (100 + Z.of_nat (length props))%Z
    | VPromise p => (200 + Z.of_nat p)%Z
    | _ => 0%Z
    end;
  numberToString := fun n =>
    match n with
    | NaN => "NaN"
    | PosInf => "Infinity"
    | NegInf => "-Infinity"
    | Fin q => pretty (Qnum q) +:+ "/" +:+ pretty (Zpos (Qden q))
    end;
  functionToString := fun f => "function f" +:+ pretty f +:+ "() {}"
|}.

(** A callee that returns how many times it had been called before. *)
Definition counting_callee (history : list (list JsValue)) (_ : list JsValue)
  : Completion JsValue :=
  Normal (VNum (num_of_nat (length history))).


(** A callee that always throws. *)
Definition failing_callee (_ : list (list JsValue)) (_ : list JsValue)
  : Completion JsValue :=
  Throw (Thrown (VStr "boom")).

Definition thousand : JsNumber := num_of_nat 1000.

Definition one_arg : list JsValue := [VNum (num_of_nat 1)].
Definition two_arg : list JsValue := [VNum (num_of_nat 2)].


(** [throttle(fn, 1000)] *)
Definition cfg_second : Config :=
  mkConfig counting_callee (Some thousand) no_options.


(** [throttle(fn, Infinity)] *)
Definition cfg_forever : Config :=
  mkConfig counting_callee (Some PosInf) no_options.

(** [throttle(fn, 1000, {maxSize: -1})] *)
Definition cfg_negative_size : Config :=
  mkConfig counting_callee (Some thousand)
           (mkOptions None None None (Some (Fin (-1))) None).

(** [throttle(fn, 1000, {maxSize: 0})] *)
Definition cfg_zero_size : Config :=
  mkConfig counting_callee (Some thousand)
           (mkOptions None None None (Some (num_of_nat 0)) None).


(** An observer that clears every new item. *)
Definition clearing_observer (_ : CacheItem) : list ItemOp := [OpClear].

(** [throttle(fn, 1000, {onCached: item => item.clear()})] *)
Definition cfg_clearing : Config :=
  mkConfig counting_callee (Some thousand)
           (mkOptions None None (Some clearing_observer) None None).

(** A cache of capacity 2 holding ["a"] and ["b"], ["a"] being the older. *)
Definition lru_ab : LruCache nat :=
  lru_set (KStr "b") 2%nat
    (lru_set (KStr "a") 1%nat (lru_new (Some (num_of_nat 2)))).

(** [throttle(failing, 1000)] *)
Definition cfg_failing : Config :=
  mkConfig failing_callee (Some thousand) no_options.



(** ** Using the LRU cache through its public methods *)

(** One call of a public method of [LruCache]. *)
Inductive LruOp (V : Type) : Type :=
| LSet (k : CacheKey) (v : V)
| LGet (k : CacheKey)
| LDelete (k : CacheKey)
| LClear.
Arguments LSet {V} _ _.
Arguments LGet {V} _.
Arguments LDelete {V} _.
Arguments LClear {V}.

(** The cache after one call, return values dropped. *)
Definition lru_step {V : Type} (op : LruOp V) (c : LruCache V) : LruCache V :=
  match op with
  | LSet k v => lru_set k v c
  | LGet k => snd (lru_get k c)
  | LDelete k => snd (lru_delete k c)
  | LClear => lru_clear c
  end.

(** The cache after a sequence of calls. *)
Definition lru_run {V : Type} (ops : list (LruOp V)) (c : LruCache V)
  : LruCache V :=
  foldl (fun c op => lru_step op c) c ops.

(** The queue has no duplicates and every queued key is stored. *)
Definition lru_wf {V : Type} (c : LruCache V) : Prop :=
  NoDup (queue c) /\ forall k, k ∈ queue c -> is_Some (storage c !! k).

(** Every stored key is queued and truthy. *)
Definition lru_tight {V : Type} (c : LruCache V) : Prop :=
  forall k, is_Some (storage c !! k) -> k ∈ queue c /\ key_truthy k = true.

(** The keys passed to [set] are truthy. *)
Definition truthy_sets {V : Type} (ops : list (LruOp V)) : Prop :=
  Forall (fun op => match op with
                    | LSet k _ => key_truthy k = true
                    | _ => True
                    end) ops.

(** What [ttl(newTimeout)] leaves in [timer]. *)
Definition handle_for (nt : NewTimeout) : option Timeout :=
  match nt with
  | TNumber n => timer_for n
  | TFalse => None
  end.

(** A mixed sequence of calls on a cache. *)
Definition lru_ops : list (LruOp nat) :=
  [LSet (KStr "a") 1%nat; LSet (KStr "b") 2%nat; LGet (KStr "a");
   LSet (KStr "c") 3%nat; LDelete (KStr "a"); LSet (KNum 7) 4%nat;
   LGet (KStr "zz")].

(** * Properties *)

#[global] Arguments js_lt : simpl never.
#[global] Arguments js_gt : simpl never.
#[global] Arguments num_of_nat : simpl never.
#[global] Arguments num_truthy : simpl never.

(** ** Numbers *)

Lemma js_gt_nat (n m : nat) :
  js_gt (num_of_nat n) (num_of_nat m) = bool_decide (m < n)%nat.
Proof.
  unfold js_gt, num_of_nat, num_of_Z, js_lt.
  destruct (Qle_bool (inject_Z (Z.of_nat n)) (inject_Z (Z.of_nat m))) eqn:E.
  - apply Qle_bool_iff in E. rewrite <- Zle_Qle in E.
    simpl. symmetry. apply bool_decide_eq_false. lia.
  - simpl. symmetry. apply bool_decide_eq_true.
    destruct (decide (m < n)%nat) as [|Hge]; [done|].
    assert (Hle : (inject_Z (Z.of_nat n) <= inject_Z (Z.of_nat m))%Q)
      by (rewrite <- Zle_Qle; lia).
    apply Qle_bool_iff in Hle. congruence.
Qed.

Lemma num_truthy_nat (n : nat) :
  num_truthy (num_of_nat n) = bool_decide (n ≠ 0%nat).
Proof.
  destruct n as [|n]; [reflexivity|].
  unfold num_of_nat, num_of_Z, num_truthy, Qeq_bool, inject_Z. simpl.
  reflexivity.
Qed.

Lemma js_gt_PosInf (a : JsNumber) : js_gt a PosInf = false.
Proof. by destruct a. Qed.

(** ** The LRU cache *)
Section lru_facts.
Context {V : Type}.
Implicit Types (c : LruCache V) (k : CacheKey) (q : list CacheKey).

Lemma indexOf_None k q : indexOf k q = None <-> k ∉ q.
Proof.
  induction q as [|k' q IH]; simpl.
  - split; [intros _; apply not_elem_of_nil | done].
  - rewrite not_elem_of_cons. destruct (decide (k' = k)) as [->|Hne].
    + split; [done | intros [? _]; done].
    + destruct (indexOf k q); simpl.
      * split; [done|]. intros [_ Hq]. by apply IH in Hq.
      * split; [|done]. intros _. split; [congruence | by apply IH].
Qed.

Lemma indexOf_Some k q i : indexOf k q = Some i -> q !! i = Some k.
Proof.
  revert i. induction q as [|k' q IH]; intros i; simpl; [done|].
  destruct (decide (k' = k)) as [->|Hne].
  - intros [= <-]. done.
  - destruct (indexOf k q) as [j|]; simpl; [|done].
    intros [= <-]. simpl. by apply IH.
Qed.

Lemma lru_hit_maxSize k c : maxSize (lru_hit k c) = maxSize c.
Proof.
  unfold lru_hit. destruct (indexOf k (queue c)); [done|].
  destruct (js_gt _ _); [|done]. by destruct (queue c ++ [k]).
Qed.

Lemma lru_set_maxSize k (v : V) c : maxSize (lru_set k v c) = maxSize c.
Proof. unfold lru_set. simpl. apply lru_hit_maxSize. Qed.

(** A touch never evicts the touched key itself, provided the cache has
    room for one entry. *)
Lemma lru_hit_lookup_self k c :
  js_lt (maxSize c) (num_of_nat 1) = false ->
  storage (lru_hit k c) !! k = storage c !! k.
Proof.
  intros Hroom. unfold lru_hit.
  destruct (indexOf k (queue c)) eqn:Hidx; [done|].
  apply indexOf_None in Hidx.
  destruct (js_gt _ _) eqn:Hgt; [|done].
  destruct (queue c) as [|k0 q] eqn:Hq; simpl in *.
  - unfold js_gt in Hgt. congruence.
  - destruct (key_truthy k0); [|done].
    apply lookup_delete_ne. intros ->. apply Hidx. left.
Qed.

(** Without a bound nothing is ever evicted. *)
Lemma lru_hit_unbounded k c :
  maxSize c = PosInf -> storage (lru_hit k c) = storage c.
Proof.
  intros Hinf. unfold lru_hit. destruct (indexOf k (queue c)); [done|].
  rewrite Hinf, js_gt_PosInf. done.
Qed.

Lemma lru_set_lookup_eq k (v : V) c : storage (lru_set k v c) !! k = Some v.
Proof. unfold lru_set. simpl. apply lookup_insert_eq. Qed.

Lemma lru_get_self k (v : V) c :
  js_lt (maxSize c) (num_of_nat 1) = false ->
  storage c !! k = Some v ->
  fst (lru_get k c) = Some v /\ storage (snd (lru_get k c)) !! k = Some v /\
  maxSize (snd (lru_get k c)) = maxSize c.
Proof.
  intros Hroom Hk. unfold lru_get, lru_has. simpl.
  rewrite bool_decide_eq_true_2 by (rewrite Hk; eauto).
  rewrite lru_hit_lookup_self, lru_hit_maxSize by done. done.
Qed.

Lemma lru_new_bound (N : nat) :
  (1 <= N)%nat ->
  lru_new (V := V) (Some (num_of_nat N)) = mkLru ∅ [] (num_of_nat N).
Proof.
  intros HN. unfold lru_new. rewrite num_truthy_nat.
  rewrite bool_decide_eq_true_2 by lia. done.
Qed.

(** While the cache is not full, [set] on fresh keys only appends. *)
Lemma lru_set_all_below (N : nat) (kvs : list (CacheKey * V)) :
  NoDup kvs.*1 -> (length kvs <= N)%nat ->
  lru_set_all kvs (mkLru ∅ [] (num_of_nat N))
  = mkLru (list_to_map kvs) kvs.*1 (num_of_nat N).
Proof.
  induction kvs as [|[k v] kvs IH] using rev_ind; intros Hnd Hlen; [done|].
  rewrite fmap_app in Hnd. simpl in Hnd.
  apply NoDup_app in Hnd as (Hnd & Hfresh & _).
  rewrite length_app in Hlen. simpl in Hlen.
  unfold lru_set_all in *. rewrite foldl_snoc, IH by (done || lia).
  unfold lru_set, lru_hit. simpl.
  assert (Hk : k ∉ kvs.*1).
  { intros Hin. apply (Hfresh _ Hin). left. }
  apply indexOf_None in Hk. rewrite Hk.
  rewrite js_gt_nat, length_app, length_fmap. simpl.
  rewrite bool_decide_eq_false_2 by lia. simpl.
  rewrite fmap_app, list_to_map_snoc by (by apply indexOf_None). done.
Qed.

(** [set] of a fresh key on a full cache. *)
Lemma lru_set_overflow (N : nat) m ke q k (v : V) :
  length (ke :: q) = N -> k ∉ ke :: q ->
  lru_set k v (mkLru m (ke :: q) (num_of_nat N))
  = mkLru (<[k := v]> (if key_truthy ke then delete ke m else m))
          (q ++ [k]) (num_of_nat N).
Proof.
  intros Hlen Hk. apply indexOf_None in Hk.
  unfold lru_set, lru_hit. cbn [queue storage maxSize].
  rewrite Hk, js_gt_nat, length_app.
  rewrite bool_decide_eq_true_2 by (simpl in *; lia). done.
Qed.

Lemma indexOf_elem_of k q : k ∈ q -> exists i, indexOf k q = Some i.
Proof.
  intros Hin. destruct (indexOf k q) as [i|] eqn:Hidx; [eauto|].
  by apply indexOf_None in Hidx.
Qed.

(** [splice(idx, 1)] on a duplicate-free queue removes exactly one key. *)
Lemma splice_NoDup q i k :
  NoDup q -> q !! i = Some k ->
  (k ∉ delete i q) /\
  (forall y, y ∈ delete i q -> y ∈ q) /\
  (forall y, y ∈ q -> y <> k -> y ∈ delete i q).
Proof.
  intros Hnd Hi. pose proof (take_drop_middle q i k Hi) as Hmid.
  rewrite delete_take_drop.
  assert (Hnd' : NoDup (take i q ++ k :: drop (S i) q)) by (by rewrite Hmid).
  apply NoDup_app in Hnd' as (_ & Hleft & Hright).
  apply NoDup_cons in Hright as [Hright _].
  split; [|split].
  - rewrite elem_of_app. intros [Hin|Hin]; [|done].
    apply (Hleft _ Hin). left.
  - intros y. rewrite <- Hmid at 3. rewrite !elem_of_app, elem_of_cons. tauto.
  - intros y. rewrite <- Hmid at 1. rewrite !elem_of_app, elem_of_cons. tauto.
Qed.

Lemma overflow_lookup_ne (m : gmap CacheKey V) ke k v k' :
  k' <> k -> k' <> ke ->
  (<[k := v]> (if key_truthy ke then delete ke m else m)) !! k' = m !! k'.
Proof.
  intros Hk Hke. rewrite lookup_insert_ne by done.
  destruct (key_truthy ke); [|done]. by rewrite lookup_delete_ne.
Qed.

Lemma overflow_lookup_evicted (m : gmap CacheKey V) ke k v :
  key_truthy ke = true -> ke <> k ->
  (<[k := v]> (if key_truthy ke then delete ke m else m)) !! ke = None.
Proof.
  intros -> Hne. rewrite lookup_insert_ne by done. apply lookup_delete_eq.
Qed.

Lemma lru_retrievable k (v : V) c :
  js_lt (maxSize c) (num_of_nat 1) = false ->
  storage c !! k = Some v ->
  lru_has k c = true /\ fst (lru_get k c) = Some v.
Proof.
  intros Hroom Hk. split; [|by apply lru_get_self].
  unfold lru_has. apply bool_decide_eq_true. rewrite Hk. eauto.
Qed.

Lemma lru_absent k c :
  storage c !! k = None ->
  lru_has k c = false /\ fst (lru_get k c) = None.
Proof.
  intros Hk. assert (Hhas : lru_has k c = false).
  { unfold lru_has. apply bool_decide_eq_false. rewrite Hk. by intros [? ?]. }
  split; [done|]. unfold lru_get. by rewrite Hhas.
Qed.

Lemma room_nat (N : nat) :
  (1 <= N)%nat -> js_lt (num_of_nat N) (num_of_nat 1) = false.
Proof.
  intros HN. change (js_gt (num_of_nat 1) (num_of_nat N) = false).
  rewrite js_gt_nat. apply bool_decide_eq_false. lia.
Qed.

(** Filling a cache of capacity [N] with [N + 1] distinct keys evicts the
    first one, if that key is truthy, and keeps the others. *)
Lemma lru_evicts_oldest (N : nat) k0 (v0 : V) (kvs : list (CacheKey * V)) :
  (1 <= N)%nat -> length kvs = N -> NoDup (k0 :: kvs.*1) ->
  key_truthy k0 = true ->
  let c := lru_set_all ((k0, v0) :: kvs) (lru_new (Some (num_of_nat N))) in
  lru_has k0 c = false /\ fst (lru_get k0 c) = None /\
  forall k v, (k, v) ∈ kvs -> lru_has k c = true /\ fst (lru_get k c) = Some v.
Proof.
  intros HN Hlen Hnd Htruthy.
  destruct kvs as [|[kn vn] kvs] using rev_ind; [simpl in Hlen; lia|].
  clear IHkvs. rewrite length_app in Hlen. simpl in Hlen.
  rewrite fmap_app in Hnd. simpl in Hnd.
  change (k0 :: kvs.*1 ++ [kn]) with (((k0, v0) :: kvs).*1 ++ [kn]) in Hnd.
  apply NoDup_app in Hnd as (Hnd & Hfresh & _).
  assert (Hkn : kn ∉ ((k0, v0) :: kvs).*1).
  { intros Hin. apply (Hfresh _ Hin). left. }
  intros c. subst c. rewrite lru_new_bound by done.
  rewrite app_comm_cons. unfold lru_set_all. rewrite foldl_snoc.
  fold (lru_set_all ((k0, v0) :: kvs) (mkLru ∅ [] (num_of_nat N))).
  rewrite lru_set_all_below by (done || simpl; lia).
  cbn [fst snd fmap list_fmap] in *.
  rewrite (lru_set_overflow N) by (done || simpl; rewrite length_fmap; lia).
  rewrite not_elem_of_cons in Hkn. destruct Hkn as [Hkn0 Hkn].
  split; [|split].
  - apply lru_absent. simpl. by apply overflow_lookup_evicted.
  - apply lru_absent. simpl. by apply overflow_lookup_evicted.
  - intros k v Hin. apply lru_retrievable; [by apply room_nat|]. simpl.
    apply elem_of_app in Hin as [Hin|Hin].
    + assert (Hk : k ∈ kvs.*1) by (by apply (list_elem_of_fmap_2 fst _ (k, v))).
      apply NoDup_cons in Hnd as [Hk0 Hnd'].
      rewrite overflow_lookup_ne by (intros ->; done).
      rewrite lookup_insert_ne by (intros ->; done).
      by apply elem_of_list_to_map_1.
    + apply list_elem_of_singleton in Hin as [= -> ->].
      apply lookup_insert_eq.
Qed.

(** A [get] before the overflowing [set] moves the key to the newest end;
    the key at the head of the queue is evicted in its place. *)
Lemma lru_get_rescues (N : nat) (kvs : list (CacheKey * V)) ki vi knew vnew :
  (2 <= N)%nat -> length kvs = N -> NoDup (kvs.*1 ++ [knew]) ->
  (ki, vi) ∈ kvs ->
  let c1 := lru_set_all kvs (lru_new (Some (num_of_nat N))) in
  let c2 := snd (lru_get ki c1) in
  let c3 := lru_set knew vnew c2 in
  last (queue c2) = Some ki /\
  (lru_has ki c3 = true /\ fst (lru_get ki c3) = Some vi) /\
  (lru_has knew c3 = true /\ fst (lru_get knew c3) = Some vnew) /\
  exists ke,
    head (queue c2) = Some ke /\ ke <> ki /\ ke ∈ kvs.*1 /\
    (key_truthy ke = true ->
     lru_has ke c3 = false /\ fst (lru_get ke c3) = None) /\
    forall k v, (k, v) ∈ kvs -> k <> ke ->
                lru_has k c3 = true /\ fst (lru_get k c3) = Some v.
Proof.
  intros HN Hlen Hnd Hin c1 c2 c3.
  apply NoDup_app in Hnd as (Hnd & Hfresh & _).
  assert (Hknew : knew ∉ kvs.*1).
  { intros Hk. apply (Hfresh _ Hk). left. }
  assert (Hki : ki ∈ kvs.*1) by (by apply (list_elem_of_fmap_2 fst _ (ki, vi))).
  assert (Hlook : forall k v, (k, v) ∈ kvs ->
                    (list_to_map kvs : gmap CacheKey V) !! k = Some v).
  { intros k v Hkv. by apply elem_of_list_to_map_1. }
  assert (Hc1 : c1 = mkLru (list_to_map kvs) kvs.*1 (num_of_nat N)).
  { subst c1. rewrite lru_new_bound by lia. apply lru_set_all_below; [done|lia]. }
  destruct (indexOf_elem_of ki _ Hki) as [idx Hidx].
  pose proof (indexOf_Some _ _ _ Hidx) as Hat.
  destruct (splice_NoDup _ _ _ Hnd Hat) as (Hgone & Hsub & Hsup).
  assert (Hc2 : c2 = mkLru (list_to_map kvs) (delete idx kvs.*1 ++ [ki])
                           (num_of_nat N)).
  { subst c2. rewrite Hc1. unfold lru_get, lru_has. cbn [storage].
    rewrite bool_decide_eq_true_2 by (rewrite (Hlook _ _ Hin); eauto).
    unfold lru_hit. cbn [queue storage maxSize snd]. by rewrite Hidx. }
  destruct (delete idx kvs.*1) as [|ke q0] eqn:Hq0.
  { apply (f_equal length) in Hq0. rewrite length_delete in Hq0
      by (rewrite Hat; eauto). rewrite length_fmap in Hq0. simpl in Hq0. lia. }
  assert (Hke : ke ∈ kvs.*1) by (apply Hsub; left).
  assert (Hkeki : ke <> ki) by (intros ->; apply Hgone; left).
  assert (Hc3 : c3 = mkLru (<[knew := vnew]>
                              (if key_truthy ke then delete ke (list_to_map kvs)
                               else list_to_map kvs))
                           ((q0 ++ [ki]) ++ [knew]) (num_of_nat N)).
  { subst c3. rewrite Hc2. simpl app. apply lru_set_overflow.
    - apply (f_equal length) in Hq0. rewrite length_delete in Hq0
        by (rewrite Hat; eauto). rewrite length_fmap in Hq0.
      simpl in *. rewrite length_app. simpl. lia.
    - rewrite app_comm_cons, elem_of_app, list_elem_of_singleton.
      intros [Hk| ->]; [|done]. by apply Hknew, Hsub. }
  assert (Hroom : js_lt (maxSize c3) (num_of_nat 1) = false).
  { rewrite Hc3. apply room_nat. lia. }
  assert (Hkeep : forall k v, (k, v) ∈ kvs -> k <> ke ->
                    lru_has k c3 = true /\ fst (lru_get k c3) = Some v).
  { intros k v Hkv Hne. apply lru_retrievable; [done|].
    rewrite Hc3. cbn [storage]. rewrite overflow_lookup_ne; [by apply Hlook| |done].
    intros ->. apply Hknew. by apply (list_elem_of_fmap_2 fst _ (knew, v)). }
  split; [|split; [|split]].
  - rewrite Hc2. simpl queue. rewrite app_comm_cons. apply last_snoc.
  - by apply Hkeep.
  - apply lru_retrievable; [done|]. rewrite Hc3. apply lookup_insert_eq.
  - exists ke. rewrite Hc2. split; [done|]. do 2 (split; [done|]).
    split; [|done]. intros Htruthy. apply lru_absent.
    rewrite Hc3. cbn [storage].
    apply overflow_lookup_evicted; [done|]. by intros ->.
Qed.

Lemma lru_set_all_maxSize (kvs : list (CacheKey * V)) c :
  maxSize (lru_set_all kvs c) = maxSize c.
Proof.
  induction kvs as [|[k v] kvs IH] using rev_ind; [done|].
  unfold lru_set_all in *. by rewrite foldl_snoc, lru_set_maxSize.
Qed.

(** An unbounded cache keeps every pair it was given. *)
Lemma lru_unbounded_keeps_all (kvs : list (CacheKey * V)) c :
  maxSize c = PosInf -> NoDup kvs.*1 ->
  forall k v, (k, v) ∈ kvs ->
    storage (lru_set_all kvs c) !! k = Some v.
Proof.
  intros Hinf. induction kvs as [|[k' v'] kvs IH] using rev_ind;
    intros Hnd k v Hin; [by apply elem_of_nil in Hin|].
  rewrite fmap_app in Hnd. apply NoDup_app in Hnd as (Hnd & Hfresh & _).
  unfold lru_set_all in *. rewrite foldl_snoc.
  unfold lru_set at 1. cbn [storage fst snd].
  rewrite lru_hit_unbounded
    by (by rewrite <- Hinf; apply lru_set_all_maxSize).
  apply elem_of_app in Hin as [Hin|Hin].
  - rewrite lookup_insert_ne; [by apply IH|]. intros <-.
    apply (Hfresh k'); [|left].
    by apply (list_elem_of_fmap_2 fst _ (k', v)).
  - apply list_elem_of_singleton in Hin as [= -> ->]. apply lookup_insert_eq.
Qed.
End lru_facts.

(** C3, as the code has it.  With capacity [N >= 1], the [N + 1]-th distinct
    key evicts the first-inserted one, which [has] and [get] no longer find
    when it is a truthy key, and the other [N] keys stay retrievable.  With
    [N >= 2], a [get] on a stored key before that insertion moves it to the
    newest end and keeps it: the key then at the head of the queue goes
    instead.  The scenario of the specification holds. *)
Theorem lru_eviction_order (V : Type) :
  (forall (N : nat) (k0 : CacheKey) (v0 : V) (kvs : list (CacheKey * V)),
     (1 <= N)%nat -> length kvs = N -> NoDup (k0 :: kvs.*1) ->
     key_truthy k0 = true ->
     let c := lru_set_all ((k0, v0) :: kvs) (lru_new (Some (num_of_nat N))) in
     lru_has k0 c = false /\ fst (lru_get k0 c) = None /\
     forall k v, (k, v) ∈ kvs -> lru_has k c = true /\ fst (lru_get k c) = Some v) /\
  (forall (N : nat) (kvs : list (CacheKey * V)) ki vi knew vnew,
     (2 <= N)%nat -> length kvs = N -> NoDup (kvs.*1 ++ [knew]) ->
     (ki, vi) ∈ kvs ->
     let c1 := lru_set_all kvs (lru_new (Some (num_of_nat N))) in
     let c2 := snd (lru_get ki c1) in
     let c3 := lru_set knew vnew c2 in
     last (queue c2) = Some ki /\
     (lru_has ki c3 = true /\ fst (lru_get ki c3) = Some vi) /\
     (lru_has knew c3 = true /\ fst (lru_get knew c3) = Some vnew) /\
     exists ke,
       head (queue c2) = Some ke /\ ke <> ki /\ ke ∈ kvs.*1 /\
       (key_truthy ke = true ->
        lru_has ke c3 = false /\ fst (lru_get ke c3) = None) /\
       forall k v, (k, v) ∈ kvs -> k <> ke ->
                   lru_has k c3 = true /\ fst (lru_get k c3) = Some v) /\
  (let c := lru_set (KStr "c") 3%nat
              (lru_set (KStr "b") 2%nat
                 (lru_set (KStr "a") 1%nat (lru_new (Some (num_of_nat 2))))) in
   lru_has (KStr "a") c = false /\ lru_has (KStr "b") c = true /\
   lru_has (KStr "c") c = true).
Proof.
  split; [|split].
  - intros. by apply lru_evicts_oldest.
  - intros. by apply lru_get_rescues.
  - by vm_compute.
Qed.

Lemma lru_eviction_order_witness :
  let c := lru_set_all [(KStr "x", 1%nat); (KStr "y", 2%nat); (KStr "z", 3%nat)]
             (lru_new (Some (num_of_nat 2))) in
  lru_has (KStr "x") c = false /\ fst (lru_get (KStr "x") c) = None.
Proof.
  pose proof (proj1 (lru_eviction_order nat) 2%nat (KStr "x") 1%nat
                [(KStr "y", 2%nat); (KStr "z", 3%nat)]) as Hw.
  cbv zeta in Hw. intros c. subst c.
  assert (H1 : (1 <= 2)%nat) by lia.
  assert (H2 : length [(KStr "y", 2%nat); (KStr "z", 3%nat)] = 2%nat) by reflexivity.
  assert (H3 : NoDup (KStr "x" :: [(KStr "y", 2%nat); (KStr "z", 3%nat)].*1))
    by (refine (bool_decide_unpack _ _); vm_compute; exact I).
  assert (H4 : key_truthy (KStr "x") = true) by reflexivity.
  destruct (Hw H1 H2 H3 H4) as (Ha & Hb & _). exact (conj Ha Hb).
Defined.

(** C3 as stated fails twice.  With capacity 1 the key that was just read
    is still the one evicted; and a falsy key ([""] here) leaves the queue
    but stays in the storage, so [has] keeps finding it. *)
Lemma lru_eviction_counterexample :
  (let c := lru_set (KStr "b") 2%nat
              (snd (lru_get (KStr "a")
                      (lru_set (KStr "a") 1%nat (lru_new (Some (num_of_nat 1)))))) in
   lru_has (KStr "a") c = false) /\
  (let c := lru_set (KStr "c") 3%nat
              (lru_set (KStr "b") 2%nat
                 (lru_set (KStr "") 1%nat (lru_new (Some (num_of_nat 2))))) in
   queue c = [KStr "b"; KStr "c"] /\ lru_has (KStr "") c = true /\
   fst (lru_get (KStr "") c) = Some 1%nat).
Proof. by vm_compute. Qed.

(** ** The caches behind [ICache] *)

#[global] Arguments lru_hit : simpl never.
#[global] Arguments lru_get : simpl never.
#[global] Arguments lru_set : simpl never.
#[global] Arguments lru_delete : simpl never.

Lemma cache_has_lookup (k : CacheKey) (c : Cache) :
  ic_has k c = bool_decide (is_Some (cache_lookup k c)).
Proof. by destruct c. Qed.

Lemma cache_set_lookup_eq (k : CacheKey) (i : CacheItem) (c : Cache) :
  cache_lookup k (ic_set k i c) = Some i.
Proof. destruct c; simpl; [apply lru_set_lookup_eq | apply lookup_insert_eq]. Qed.

Lemma cache_set_room (k : CacheKey) (i : CacheItem) (c : Cache) :
  cache_has_room (ic_set k i c) = cache_has_room c.
Proof. destruct c; simpl; [|done]. by rewrite lru_hit_maxSize. Qed.

(** Reading a stored key returns its entry and leaves it stored. *)
Lemma cache_get_stored (k : CacheKey) (i : CacheItem) (c : Cache) :
  cache_has_room c = true -> cache_lookup k c = Some i ->
  fst (ic_get k c) = Some i /\
  cache_lookup k (snd (ic_get k c)) = Some i /\
  cache_has_room (snd (ic_get k c)) = true.
Proof.
  destruct c as [l|m]; intros Hroom Hk; [|done].
  cbn [ic_get Cache_ICache fst snd cache_lookup cache_has_room] in *.
  apply negb_true_iff in Hroom.
  destruct (lru_get_self k i l Hroom Hk) as (Hv & Hs & Hm).
  repeat split; [done..|]. rewrite Hm. by apply negb_true_iff.
Qed.

Lemma cache_delete_lookup (k k' : CacheKey) (c : Cache) :
  cache_lookup k' (snd (ic_delete k c))
  = if decide (k = k') then None else cache_lookup k' c.
Proof.
  destruct c as [l|m]; simpl.
  - unfold lru_delete, lru_evict. simpl. rewrite lookup_delete.
    by destruct (indexOf k (queue l)).
  - by rewrite lookup_delete.
Qed.

Lemma cache_clear_lookup (k : CacheKey) (c : Cache) :
  cache_lookup k (ic_clear c) = None.
Proof. destruct c; simpl; apply lookup_empty. Qed.

(** ** The engine *)
Section engine_facts.
Context `{Host}.
Variable cfg : Config.

Lemma bind_normal {A B : Type} (m : M A) (k : A -> M B) st a st' :
  m st = (Normal a, st') -> bind m k st = k a st'.
Proof. unfold bind. by intros ->. Qed.

Lemma bind_throw {A B : Type} (m : M A) (k : A -> M B) st e st' :
  m st = (Throw e, st') -> bind m k st = (Throw e, st').
Proof. unfold bind. by intros ->. Qed.

Lemma set_scopes_id st : set_scopes (scopes st) st = st.
Proof. by destruct st. Qed.

Lemma set_catchers_id st : set_catchers (catchers st) st = st.
Proof. by destruct st. Qed.

(** Timer bookkeeping touches nothing but the [timer] of a scope. *)
Lemma set_timer_scopes env t st :
  exists s', set_timer env t st = (Normal tt, set_scopes s' st) /\
             s_key <$> s' = s_key <$> scopes st.
Proof.
  unfold set_timer. destruct (scopes st !! env) as [sc|] eqn:Hsc.
  - eexists. split; [done|].
    rewrite list_fmap_insert. apply list_insert_id.
    by rewrite list_lookup_fmap, Hsc.
  - exists (scopes st). by rewrite set_scopes_id.
Qed.

Lemma cancelTimeout_scopes env st :
  exists s', cancelTimeout env st = (Normal tt, set_scopes s' st) /\
             s_key <$> s' = s_key <$> scopes st.
Proof.
  unfold cancelTimeout.
  destruct (scopes st !! env) as [[k [t|]]|] eqn:Hsc; simpl;
    try (exists (scopes st); by rewrite set_scopes_id).
  apply set_timer_scopes.
Qed.

Lemma applyTimeout_scopes env t st :
  exists s', applyTimeout env t st = (Normal tt, set_scopes s' st) /\
             s_key <$> s' = s_key <$> scopes st.
Proof.
  unfold applyTimeout.
  destruct (cancelTimeout_scopes env st) as (s1 & Hs1 & Hk1).
  rewrite (bind_normal _ _ _ _ _ Hs1).
  destruct t as [n|]; [destruct (is_Infinity n)|]; try (by eexists).
  destruct (set_timer_scopes env (Some (mkTimeout n true)) (set_scopes s1 st))
    as (s2 & Hs2 & Hk2).
  rewrite Hs2. exists s2. split; [done|]. by rewrite Hk2.
Qed.


Lemma rejectFailedPromise_catchers item st :
  rejectFailedPromise item st
  = (Normal tt,
     set_catchers
       (catchers st ++ match item_value item with
                       | VPromise p => [(p, item_scope item)]
                       | _ => []
                       end) st).
Proof.
  unfold rejectFailedPromise.
  destruct (item_value item); try done;
    unfold ret; by rewrite app_nil_r, set_catchers_id.
Qed.


(** Without an observer the state after [onCached] is known exactly. *)
Lemma getOnCached_no_observer item st :
  o_onCached (options cfg) = None ->
  getOnCached cfg item st
  = (Normal tt, set_catchers (catchers st ++ attached cfg item) st).
Proof.
  intros Hobs. unfold getOnCached, attached. rewrite Hobs.
  destruct (o_rejectFailedPromise (options cfg)) as [[|]|];
    rewrite ?rejectFailedPromise_catchers; unfold ret;
    by rewrite ?app_nil_r, ?set_catchers_id.
Qed.

(** [cache.get(key)!.value] on a stored key. *)
Lemma read_value_stored key i st :
  cache_has_room (cache st) = true ->
  cache_lookup key (cache st) = Some i ->
  read_value key st
  = (Normal (item_value i), set_cache (snd (ic_get key (cache st))) st).
Proof.
  intros Hroom Hk. unfold read_value, bind, cache_get.
  destruct (cache_get_stored _ _ _ Hroom Hk) as (-> & _ & _). done.
Qed.

(** [cache.get(key)!.value] on a missing key throws. *)
Lemma read_value_missing key st :
  cache_lookup key (cache st) = None ->
  fst (read_value key st) = Throw TypeError.
Proof.
  intros Hk. unfold read_value, bind, cache_get.
  destruct (cache st) as [l|m];
    cbn [ic_get Cache_ICache cache_lookup fst snd] in *.
  - destruct (lru_absent _ _ Hk) as [_ ->]. done.
  - by rewrite Hk.
Qed.

(** Arming the timer of the scope that was just entered. *)
Lemma applyTimeout_fresh key t c col sc cat rej cl :
  applyTimeout (length sc) (TNumber t)
    (mkState c col (sc ++ [mkScope key None]) cat rej cl)
  = (Normal tt, mkState c col (sc ++ [mkScope key (timer_for t)]) cat rej cl).
Proof.
  unfold applyTimeout, bind, cancelTimeout, timer_for. cbn [scopes].
  rewrite list_lookup_middle by done. cbn [s_timer].
  destruct (is_Infinity t); [done|].
  unfold set_timer. cbn [scopes]. rewrite list_lookup_middle by done.
  unfold set_scopes. cbn.
  rewrite insert_app_r_alt, Nat.sub_diag by done. done.
Qed.

(** The populating branch up to the call of [onCached]. *)
Lemma populate_prefix t key args st v :
  func cfg (calls st) args = Normal v ->
  let item := mkItem key v (length (scopes st)) in
  populate cfg t key args st
  = (getOnCached cfg item ;; read_value key)
      (mkState (ic_set key item (cache st)) (collected st)
               (scopes st ++ [mkScope key (timer_for t)])
               (catchers st) (rejections st) (calls st ++ [args])).
Proof.
  intros Hv item. unfold populate.
  rewrite (bind_normal _ _ _ v (set_calls (calls st ++ [args]) st))
    by (unfold call_func; by rewrite Hv).
  unfold bind at 1. cbn [new_scope set_calls set_scopes scopes cache collected
                           catchers rejections calls].
  unfold bind at 1. cbn [cache_set set_cache scopes cache collected
                           catchers rejections calls].
  unfold set_cache, set_scopes, set_calls.
  cbn [scopes cache collected catchers rejections calls].
  by rewrite (bind_normal _ _ _ _ _ (applyTimeout_fresh _ _ _ _ _ _ _ _)).
Qed.

(** A miss whose callee throws: nothing but the call itself happened. *)
Lemma populate_throws t key args st e :
  func cfg (calls st) args = Throw e ->
  populate cfg t key args st = (Throw e, set_calls (calls st ++ [args]) st).
Proof.
  intros He. unfold populate. apply bind_throw.
  unfold call_func. by rewrite He.
Qed.


(** The same without any observer: the scopes are known too. *)
Lemma populate_no_observer t key args st v :
  func cfg (calls st) args = Normal v ->
  cache_has_room (cache st) = true ->
  o_onCached (options cfg) = None ->
  let item := mkItem key v (length (scopes st)) in
  populate cfg t key args st
  = (Normal v,
     mkState (snd (ic_get key (ic_set key item (cache st)))) (collected st)
             (scopes st ++ [mkScope key (timer_for t)])
             (catchers st ++ attached cfg item)
             (rejections st) (calls st ++ [args])).
Proof.
  intros Hv Hroom Hobs item. rewrite (populate_prefix _ _ _ _ _ Hv).
  fold item.
  rewrite (bind_normal _ _ _ _ _ (getOnCached_no_observer item _ Hobs)).
  rewrite (read_value_stored key item).
  - done.
  - cbn [cache set_scopes set_catchers]. by rewrite cache_set_room.
  - cbn [cache set_scopes set_catchers]. apply cache_set_lookup_eq.
Qed.

(** The two branches of the wrapper. *)
Lemma invoke_bypass args st :
  no_timeout cfg = true -> invoke cfg args st = call_func cfg args st.
Proof.
  unfold no_timeout, invoke. destruct (timeout cfg) as [t|]; [|done].
  by intros ->.
Qed.

Lemma invoke_caching args st :
  no_timeout cfg = false ->
  exists t,
    timeout cfg = Some t /\
    invoke cfg args st
    = if ic_has (key_of cfg args) (cache st)
      then read_value (key_of cfg args) st
      else populate cfg t (key_of cfg args) args st.
Proof.
  unfold no_timeout, invoke. destruct (timeout cfg) as [t|]; [|done].
  intros ->. exists t. split; [done|].
  unfold bind, cache_has. by destruct (ic_has _ _).
Qed.



Lemma at_least_one_caches t :
  timeout cfg = Some t -> num_truthy t = true ->
  js_lt t (num_of_nat 1) = false -> no_timeout cfg = false.
Proof. unfold no_timeout. by intros -> -> ->. Qed.






(** C6.  A callee that throws on a miss, or when caching is off, has its
    exception handed to the caller unchanged; the cache, the scopes and
    the registered handlers are what they were, and only the call itself
    is on record. *)
Theorem callee_failure_propagates (args : list JsValue) (st : State)
    (e : JsError) :
  func cfg (calls st) args = Throw e ->
  no_timeout cfg = true \/ ic_has (key_of cfg args) (cache st) = false ->
  invoke cfg args st = (Throw e, set_calls (calls st ++ [args]) st) /\
  cache (snd (invoke cfg args st)) = cache st /\
  scopes (snd (invoke cfg args st)) = scopes st /\
  catchers (snd (invoke cfg args st)) = catchers st.
Proof.
  intros He Hmiss.
  assert (Hrun : invoke cfg args st
                 = (Throw e, set_calls (calls st ++ [args]) st)).
  { destruct (no_timeout cfg) eqn:Hto.
    - rewrite invoke_bypass by done. unfold call_func. by rewrite He.
    - destruct Hmiss as [|Hmiss]; [done|].
      destruct (invoke_caching args st Hto) as (t & _ & ->).
      rewrite Hmiss. by apply populate_throws. }
  by rewrite Hrun.
Qed.

Lemma same_keys_lookup (s s' : list Scope) env :
  s_key <$> s' = s_key <$> s ->
  s_key <$> (s' !! env) = s_key <$> (s !! env).
Proof. intros Hk. by rewrite <- !list_lookup_fmap, Hk. Qed.

(** [clear]: the timer is cancelled; the key leaves the cache exactly when
    the weak reference still resolves. *)
Lemma clear_spec env st :
  exists s',
    clear env st
    = (Normal tt,
       set_cache (if collected st then cache st
                  else match scopes st !! env with
                       | Some sc => snd (ic_delete (s_key sc) (cache st))
                       | None => cache st
                       end)
                 (set_scopes s' st)) /\
    s_key <$> s' = s_key <$> scopes st.
Proof.
  unfold clear.
  destruct (cancelTimeout_scopes env st) as (s' & Hs' & Hk').
  rewrite (bind_normal _ _ _ _ _ Hs'). exists s'. split; [|done].
  unfold isRealRefDead, getRealRef, cacheRef.
  cbn [deref strict_eq_undefined negb collected cache scopes set_scopes].
  pose proof (same_keys_lookup _ _ env Hk') as Henv.
  destruct (collected st); [done|].
  destruct (s' !! env) as [sc'|], (scopes st !! env) as [sc|];
    simpl in Henv; try done.
  by injection Henv as ->.
Qed.


Lemma at_least_one_truthy q :
  js_lt (Fin q) (num_of_nat 1) = false -> num_truthy (Fin q) = true.
Proof.
  unfold js_lt, num_truthy, num_of_nat, num_of_Z. intros Hge.
  apply negb_false_iff, Qle_bool_iff in Hge.
  apply negb_true_iff. destruct (Qeq_bool q 0) eqn:E; [|done].
  apply Qeq_bool_iff in E. rewrite E in Hge.
  unfold Qle in Hge. simpl in Hge. lia.
Qed.

(** A miss under no observer, in full. *)
Lemma invoke_populates t args st v :
  timeout cfg = Some t -> no_timeout cfg = false ->
  ic_has (key_of cfg args) (cache st) = false ->
  func cfg (calls st) args = Normal v ->
  cache_has_room (cache st) = true ->
  o_onCached (options cfg) = None ->
  let key := key_of cfg args in
  let item := mkItem key v (length (scopes st)) in
  invoke cfg args st
  = (Normal v,
     mkState (snd (ic_get key (ic_set key item (cache st)))) (collected st)
             (scopes st ++ [mkScope key (timer_for t)])
             (catchers st ++ attached cfg item)
             (rejections st) (calls st ++ [args])) /\
  ic_has key (snd (ic_get key (ic_set key item (cache st)))) = true.
Proof.
  intros Ht Hto Hmiss Hv Hroom Hobs key item.
  destruct (invoke_caching args st Hto) as (t' & Ht' & ->).
  rewrite Ht in Ht'. injection Ht' as <-. rewrite Hmiss.
  split; [by apply populate_no_observer|].
  destruct (cache_get_stored key item (ic_set key item (cache st)))
    as (_ & Hstored & _).
  { by rewrite cache_set_room. }
  { apply cache_set_lookup_eq. }
  rewrite cache_has_lookup, Hstored. apply bool_decide_eq_true. eauto.
Qed.


(** C9.  Once the weak reference no longer resolves, running [clear] --
    directly or as the callback of a timer that fires -- completes
    normally, leaves the cache object as it was, and the reference still
    does not resolve. *)
Theorem clear_after_reclaim (env : nat) (st : State) :
  getRealRef (cacheRef st) = None ->
  (fst (clear env st) = Normal tt /\
   cache (snd (clear env st)) = cache st /\
   getRealRef (cacheRef (snd (clear env st))) = None) /\
  (fst (fire_timer env st) = Normal tt /\
   cache (snd (fire_timer env st)) = cache st /\
   getRealRef (cacheRef (snd (fire_timer env st))) = None).
Proof.
  intros Hdead.
  assert (Hcol : collected st = true).
  { unfold getRealRef, cacheRef in Hdead. simpl in Hdead.
    by destruct (collected st). }
  assert (Hclear : fst (clear env st) = Normal tt /\
                   cache (snd (clear env st)) = cache st /\
                   getRealRef (cacheRef (snd (clear env st))) = None).
  { destruct (clear_spec env st) as (s' & -> & _). rewrite Hcol.
    unfold getRealRef, cacheRef. cbn. by rewrite Hcol. }
  split; [done|]. unfold fire_timer.
  destruct (scopes st !! env) as [[k [t|]]|]; cbn [s_timer fst snd]; done.
Qed.

(** C7.  [clearCache()] leaves no entry.  [clearCache(...args)] removes
    the entry under the key resolved from [args] and leaves every other
    key with the entry it had. *)
Theorem clearCache_semantics (args : list JsValue) (st : State) :
  (fst (clearCache cfg [] st) = Normal tt /\
   forall k, cache_lookup k (cache (snd (clearCache cfg [] st))) = None /\
             ic_has k (cache (snd (clearCache cfg [] st))) = false) /\
  (args <> [] ->
   let st' := snd (clearCache cfg args st) in
   fst (clearCache cfg args st) = Normal tt /\
   cache_lookup (key_of cfg args) (cache st') = None /\
   ic_has (key_of cfg args) (cache st') = false /\
   forall k, k <> key_of cfg args ->
             cache_lookup k (cache st') = cache_lookup k (cache st) /\
             ic_has k (cache st') = ic_has k (cache st)).
Proof.
  split.
  - split; [done|]. intros k. rewrite cache_has_lookup.
    unfold clearCache, cache_clear.
    rewrite bool_decide_eq_true_2 by (simpl; lia).
    cbn [fst snd cache set_cache].
    rewrite cache_clear_lookup. split; [done|].
    apply bool_decide_eq_false. by intros [? ?].
  - intros Hargs st'. subst st'. unfold clearCache.
    rewrite bool_decide_eq_false_2
      by (destruct args; [done | simpl; lia]).
    unfold cache_delete. cbn [fst snd cache set_cache].
    split; [done|]. rewrite !cache_has_lookup, cache_delete_lookup.
    rewrite decide_True by done.
    split; [done|]. split; [apply bool_decide_eq_false; by intros [? ?]|].
    intros k Hk. rewrite !cache_has_lookup, cache_delete_lookup.
    by rewrite decide_False.
Qed.





(** *** Unbounded caches only grow under calls *)

Lemma unbounded_room c : unbounded c -> cache_has_room c = true.
Proof. destruct c as [l|m]; simpl; [|done]. by intros ->. Qed.

Lemma unbounded_set k i c :
  unbounded c ->
  unbounded (ic_set k i c) /\
  forall k', ic_has k' c = true -> ic_has k' (ic_set k i c) = true.
Proof.
  intros Hu. split.
  - destruct c as [l|m]; [|done]. simpl in *. by rewrite lru_hit_maxSize.
  - intros k'. rewrite !cache_has_lookup.
    intros Hk'%bool_decide_eq_true. apply bool_decide_eq_true.
    destruct c as [l|m]; cbn [ic_set Cache_ICache cache_lookup] in *.
    + unfold lru_set. cbn [storage]. rewrite lru_hit_unbounded by done.
      rewrite lookup_insert. by destruct (decide _).
    + rewrite lookup_insert. by destruct (decide _).
Qed.

Lemma unbounded_get k c :
  unbounded c ->
  unbounded (snd (ic_get k c)) /\
  forall k', cache_lookup k' (snd (ic_get k c)) = cache_lookup k' c.
Proof.
  intros Hu. destruct c as [l|m]; [|done].
  cbn [ic_get Cache_ICache snd unbounded cache_lookup] in *.
  unfold lru_get. cbn [snd]. destruct (lru_has k l); [|done].
  by rewrite lru_hit_maxSize, lru_hit_unbounded.
Qed.

Lemma invoke_unbounded args st :
  no_timeout cfg = false ->
  o_onCached (options cfg) = None ->
  (forall h a, exists v, func cfg h a = Normal v) ->
  unbounded (cache st) ->
  let st' := snd (invoke cfg args st) in
  unbounded (cache st') /\
  ic_has (key_of cfg args) (cache st') = true /\
  forall k, ic_has k (cache st) = true -> ic_has k (cache st') = true.
Proof.
  intros Hto Hobs Htotal Hu st'. subst st'.
  pose proof (unbounded_room _ Hu) as Hroom.
  destruct (timeout cfg) as [t|] eqn:Ht;
    [|by unfold no_timeout in Hto; rewrite Ht in Hto].
  destruct (ic_has (key_of cfg args) (cache st)) eqn:Hhas.
  - destruct (invoke_caching args st Hto) as (t' & _ & ->). rewrite Hhas.
    pose proof Hhas as Hk. rewrite cache_has_lookup in Hk.
    apply bool_decide_eq_true in Hk as [i Hi].
    rewrite (read_value_stored _ i st Hroom Hi). cbn [snd cache set_cache].
    destruct (unbounded_get (key_of cfg args) (cache st) Hu) as [Hu' Hsame].
    split; [done|].
    split; [by rewrite cache_has_lookup, Hsame, <- cache_has_lookup|].
    intros k. by rewrite !cache_has_lookup, Hsame.
  - destruct (Htotal (calls st) args) as [v Hv].
    destruct (invoke_populates t args st v Ht Hto Hhas Hv Hroom Hobs)
      as [-> Hnow].
    cbn [snd cache].
    set (item := mkItem _ _ _) in *.
    destruct (unbounded_set (key_of cfg args) item (cache st) Hu)
      as [Hu1 Hgrow].
    destruct (unbounded_get (key_of cfg args) _ Hu1) as [Hu2 Hsame].
    split; [done|]. split; [done|].
    intros k Hk. rewrite cache_has_lookup, Hsame, <- cache_has_lookup.
    by apply Hgrow.
Qed.

Lemma invoke_all_unbounded argss st :
  no_timeout cfg = false ->
  o_onCached (options cfg) = None ->
  (forall h a, exists v, func cfg h a = Normal v) ->
  unbounded (cache st) ->
  (forall k, ic_has k (cache st) = true ->
             ic_has k (cache (invoke_all cfg argss st)) = true) /\
  (forall args, args ∈ argss ->
                ic_has (key_of cfg args) (cache (invoke_all cfg argss st)) = true).
Proof.
  intros Hto Hobs Htotal. revert st.
  induction argss as [|a argss IH]; intros st Hu.
  - split; [done|]. intros args Hin. by apply elem_of_nil in Hin.
  - cbn [invoke_all].
    destruct (invoke_unbounded a st Hto Hobs Htotal Hu) as (Hu' & Hnow & Hgrow).
    destruct (IH _ Hu') as [Hkeep Hall].
    split; [by intros k Hk; apply Hkeep, Hgrow|].
    intros args [->|Hin]%elem_of_cons; [by apply Hkeep | by apply Hall].
Qed.
End engine_facts.

(** C10.  [maxSize: 0] makes the LRU cache unbounded: the bound becomes
    [Infinity], and after any run of [set] on distinct keys every pair is
    found by [has] and [get].  The engine configured with [maxSize: 0] gets
    such a cache, and every key it has been called with stays cached. *)
Theorem maxSize_zero_unbounded (V : Type) :
  maxSize (lru_new (V := V) (Some (num_of_nat 0))) = PosInf /\
  (forall (kvs : list (CacheKey * V)) k v,
     NoDup kvs.*1 -> (k, v) ∈ kvs ->
     let c := lru_set_all kvs (lru_new (Some (num_of_nat 0))) in
     lru_has k c = true /\ fst (lru_get k c) = Some v) /\
  (forall (H : Host) (cfg : Config) (argss : list (list JsValue)),
     o_cache (options cfg) = None ->
     o_maxSize (options cfg) = Some (num_of_nat 0) ->
     o_onCached (options cfg) = None ->
     no_timeout cfg = false ->
     (forall h a, exists v, func cfg h a = Normal v) ->
     (exists l, cache (init cfg) = LruC l /\ maxSize l = PosInf) /\
     forall args, args ∈ argss ->
       ic_has (key_of cfg args) (cache (invoke_all cfg argss (init cfg))) = true).
Proof.
  split; [done|]. split.
  - intros kvs k v Hnd Hin c.
    assert (Hinf : maxSize c = PosInf) by (subst c; by rewrite lru_set_all_maxSize).
    apply lru_retrievable; [by rewrite Hinf|].
    by apply lru_unbounded_keeps_all.
  - intros H cfg argss Hc Hm Hobs Hto Htotal.
    assert (Hinit : cache (init cfg) = LruC (lru_new (Some (num_of_nat 0)))).
    { unfold init, getCache. cbn [cache]. by rewrite Hc, Hm. }
    split; [by eexists|].
    apply invoke_all_unbounded; try done. by rewrite Hinit.
Qed.

(** ** The weak reference *)

(** [isRealRefDead] compares the string [typeof] returns with [undefined]
    and so answers [false] for every reference. *)
Lemma isRealRefDead_never {T : Type} (v : WeakRef T) : isRealRefDead v = false.
Proof. reflexivity. Qed.

(** C4 fails on the code: for a reference whose target has been reclaimed,
    [getRealRef] returns absent and the specification wants [isDead] to
    answer [true], yet [isRealRefDead] answers [false]. *)
Theorem isRealRefDead_reclaimed :
  getRealRef (mkWeakRef (T := Cache) None) = None /\
  spec_isDead (mkWeakRef (T := Cache) None) = true /\
  isRealRefDead (mkWeakRef (T := Cache) None) = false.
Proof. repeat split. Qed.

(** ** The key resolver *)

(** C5.  A one-element array resolves to what its element resolves to; a
    value that is not an object resolves to its string form; a non-null
    object other than a one-element array resolves to its hash.  So for a
    primitive [a], [[a]] and [a] resolve to the same key, [String(a)]. *)
Theorem toResolverKey_collapses `{Host} (a : JsValue) :
  is_primitive a = true ->
  toResolverKey (VArr [a]) = toResolverKey a /\
  toResolverKey (VArr [VArr [a]]) = toResolverKey a /\
  toResolverKey a = KStr (js_String a) /\
  (forall v, toResolverKey (VArr [v]) = toResolverKey v) /\
  (forall v, typeof v <> "object" \/ js_truthy v = false ->
             toResolverKey v = KStr (js_String v)) /\
  (forall v, typeof v = "object" -> js_truthy v = true ->
             (forall x, v <> VArr [x]) ->
             toResolverKey v = KNum (hash v)).
Proof.
  intros Hprim.
  assert (Hstr : forall v, typeof v <> "object" \/ js_truthy v = false ->
                           toResolverKey v = KStr (js_String v)).
  { intros v Hv. destruct v; try done; destruct Hv as [Hv|Hv]; done. }
  repeat split; try done.
  - apply Hstr. destruct a; try done; (by left) || (by right).
  - intros v Hobj Htruthy Hnot.
    destruct v as [| | | | | |elems| |]; try done.
    destruct elems as [|x [|y elems]]; try done.
    by destruct (Hnot x).
Qed.

(** ** The properties at concrete inputs *)





Lemma toResolverKey_collapses_witness :
  toResolverKey (H := test_host) (VArr [VStr "a"])
  = toResolverKey (H := test_host) (VStr "a") /\
  toResolverKey (H := test_host) (VStr "a") = KStr "a".
Proof.
  destruct (toResolverKey_collapses (H := test_host) (VStr "a"))
    as (H1 & _ & H3 & _); [reflexivity|].
  exact (conj H1 H3).
Defined.

Lemma callee_failure_propagates_witness :
  invoke (H := test_host) cfg_failing one_arg (init cfg_failing)
  = (Throw (Thrown (VStr "boom")),
     set_calls [one_arg] (init cfg_failing)).
Proof.
  apply (callee_failure_propagates (H := test_host) cfg_failing one_arg
           (init cfg_failing) (Thrown (VStr "boom"))).
  - reflexivity.
  - right. reflexivity.
Defined.

Lemma clearCache_semantics_witness :
  let st := invoke_all (H := test_host) cfg_second [one_arg; two_arg]
              (init cfg_second) in
  let st' := snd (clearCache (H := test_host) cfg_second one_arg st) in
  ic_has (key_of (H := test_host) cfg_second one_arg) (cache st') = false /\
  ic_has (key_of (H := test_host) cfg_second two_arg) (cache st') = true.
Proof.
  intros st st'. subst st'.
  destruct (clearCache_semantics (H := test_host) cfg_second one_arg st)
    as [_ Hone].
  destruct Hone as (_ & _ & Hgone & Hothers); [discriminate|].
  split; [exact Hgone|].
  destruct (Hothers (key_of (H := test_host) cfg_second two_arg))
    as [_ Hsame]; [by vm_compute|].
  rewrite Hsame. reflexivity.
Defined.


Lemma clear_after_reclaim_witness :
  let st := collect (snd (invoke (H := test_host) cfg_second one_arg
                            (init cfg_second))) in
  fst (fire_timer 0 st) = Normal tt /\
  cache (snd (fire_timer 0 st)) = cache st /\
  getRealRef (cacheRef (snd (fire_timer 0 st))) = None.
Proof.
  intros st.
  destruct (clear_after_reclaim 0 st) as [_ Hfire]; [reflexivity|].
  exact Hfire.
Defined.

Lemma maxSize_zero_unbounded_witness :
  let st := invoke_all (H := test_host) cfg_zero_size
              [one_arg; two_arg; one_arg] (init cfg_zero_size) in
  ic_has (key_of (H := test_host) cfg_zero_size one_arg) (cache st) = true /\
  ic_has (key_of (H := test_host) cfg_zero_size two_arg) (cache st) = true.
Proof.
  destruct (maxSize_zero_unbounded nat) as (_ & _ & Hengine).
  destruct (Hengine test_host cfg_zero_size [one_arg; two_arg; one_arg])
    as [_ Hall]; try reflexivity.
  - intros h a. eexists. reflexivity.
  - split; apply Hall; [left | right; left].
Defined.

(** * Further properties of the code *)

(** ** The LRU cache under arbitrary use *)
Section lru_use.
Context {V : Type}.
Implicit Types (c : LruCache V) (k : CacheKey) (q : list CacheKey).

(** Moving a queued key to the newest end. *)
Lemma splice_push_split q k :
  NoDup q -> k ∈ q ->
  exists i l1 l2,
    indexOf k q = Some i /\ q = l1 ++ k :: l2 /\ delete i q = l1 ++ l2.
Proof.
  intros Hnd Hin. destruct (indexOf_elem_of k q Hin) as [i Hi].
  pose proof (indexOf_Some _ _ _ Hi) as Hat.
  exists i, (take i q), (drop (S i) q). split; [done|]. split.
  - symmetry. by apply take_drop_middle.
  - apply delete_take_drop.
Qed.

Lemma elem_of_rotate q1 q2 k x : x ∈ q1 ++ q2 ++ [k] <-> x ∈ q1 ++ k :: q2.
Proof.
  rewrite !elem_of_app, !elem_of_cons, elem_of_nil. tauto.
Qed.

Lemma lru_hit_queued k c :
  NoDup (queue c) -> k ∈ queue c ->
  exists l1 l2,
    queue c = l1 ++ k :: l2 /\
    lru_hit k c = mkLru (storage c) (l1 ++ l2 ++ [k]) (maxSize c).
Proof.
  intros Hnd Hin.
  destruct (splice_push_split _ _ Hnd Hin) as (i & l1 & l2 & Hi & Hq & Hdel).
  exists l1, l2. split; [done|]. unfold lru_hit.
  by rewrite Hi, Hdel, <- app_assoc.
Qed.

(** What [#hit] does to a key that is not queued. *)
Lemma lru_hit_fresh k c :
  k ∉ queue c ->
  lru_hit k c
  = if js_gt (num_of_nat (S (length (queue c)))) (maxSize c)
    then match queue c with
         | [] => mkLru (if key_truthy k then delete k (storage c) else storage c)
                       [] (maxSize c)
         | ke :: q' => mkLru (if key_truthy ke then delete ke (storage c)
                              else storage c)
                             (q' ++ [k]) (maxSize c)
         end
    else mkLru (storage c) (queue c ++ [k]) (maxSize c).
Proof.
  intros Hk. apply indexOf_None in Hk. unfold lru_hit. rewrite Hk.
  rewrite length_app, Nat.add_1_r. cbn [length].
  destruct (js_gt _ _); [|done]. by destruct (queue c).
Qed.

(** [#hit] keeps the queue duplicate-free, queues nothing but [k], and
    leaves the entry of every key that is still queued. *)
Lemma lru_hit_inv k c :
  NoDup (queue c) ->
  NoDup (queue (lru_hit k c)) /\
  (forall x, x ∈ queue (lru_hit k c) -> x = k \/ x ∈ queue c) /\
  (forall x, x ∈ queue (lru_hit k c) ->
             storage (lru_hit k c) !! x = storage c !! x).
Proof.
  intros Hnd. destruct (decide (k ∈ queue c)) as [Hin|Hout].
  - destruct (lru_hit_queued k c Hnd Hin) as (l1 & l2 & Hq & ->).
    rewrite Hq in Hnd |- *. cbn [queue storage].
    apply NoDup_app in Hnd as (H1 & H12 & H2).
    apply NoDup_cons in H2 as [Hk2 H2].
    split; [|split; [|done]].
    + rewrite app_assoc. apply NoDup_app. split; [|split].
      * apply NoDup_app. split; [done|]. split; [|done].
        intros x Hx Hx2. apply (H12 x Hx). by right.
      * intros x Hx Hxk. apply list_elem_of_singleton in Hxk as ->.
        apply elem_of_app in Hx as [Hx|Hx]; [|done].
        apply (H12 k Hx). left.
      * apply NoDup_singleton.
    + intros x Hx. right.
      apply elem_of_app in Hx as [Hx|Hx]; [by apply elem_of_app; left|].
      apply elem_of_app in Hx as [Hx|Hx].
      * apply elem_of_app. right. by right.
      * apply list_elem_of_singleton in Hx as ->. apply elem_of_app. right. left.
  - rewrite lru_hit_fresh by done.
    assert (Hsnoc : forall l, NoDup l -> k ∉ l -> NoDup (l ++ [k])).
    { intros l Hl Hkl. apply NoDup_app. split; [done|].
      split; [|apply NoDup_singleton].
      intros x Hx Hxk. by apply list_elem_of_singleton in Hxk as ->. }
    assert (Hmem : forall l x, x ∈ l ++ [k] -> x = k \/ x ∈ l).
    { intros l x Hx. apply elem_of_app in Hx as [Hx|Hx]; [by right|].
      left. by apply list_elem_of_singleton in Hx. }
    destruct (js_gt _ _).
    + destruct (queue c) as [|ke q'] eqn:Hq; cbn [queue storage].
      * split; [constructor|]. split; intros x Hx; by apply elem_of_nil in Hx.
      * apply NoDup_cons in Hnd as [Hke Hnd].
        apply not_elem_of_cons in Hout as [Hkke Hout].
        split; [by apply Hsnoc|]. split.
        -- intros x Hx. destruct (Hmem _ _ Hx) as [->|Hx']; [by left|].
           right. by right.
        -- intros x Hx. destruct (key_truthy ke); [|done].
           apply lookup_delete_ne. intros <-.
           destruct (Hmem _ _ Hx) as [->|Hx']; done.
    + cbn [queue storage]. split; [by apply Hsnoc|]. split; [|done].
      intros x Hx. by apply Hmem.
Qed.

Lemma lru_set_wf k (v : V) c : lru_wf c -> lru_wf (lru_set k v c).
Proof.
  intros [Hnd Hst]. destruct (lru_hit_inv k c Hnd) as (Hnd' & Hmem & Hsame).
  unfold lru_set. split; cbn [queue storage]; [done|].
  intros x Hx. destruct (decide (x = k)) as [->|Hne].
  - rewrite lookup_insert_eq. eauto.
  - rewrite lookup_insert_ne, Hsame by done.
    destruct (Hmem x Hx) as [->|Hx']; [done | by apply Hst].
Qed.

Lemma lru_get_wf k c : lru_wf c -> lru_wf (snd (lru_get k c)).
Proof.
  intros [Hnd Hst]. unfold lru_get, lru_has. cbn [snd].
  case_bool_decide as Hk; [|done].
  destruct (lru_hit_inv k c Hnd) as (Hnd' & Hmem & Hsame).
  split; [done|]. intros x Hx. rewrite Hsame by done.
  destruct (Hmem x Hx) as [->|Hx']; [done | by apply Hst].
Qed.

Lemma lru_delete_wf k c : lru_wf c -> lru_wf (snd (lru_delete k c)).
Proof.
  intros [Hnd Hst]. unfold lru_delete, lru_evict, lru_wf. cbn [snd].
  destruct (indexOf k (queue c)) as [i|] eqn:Hi; cbn [queue storage].
  - pose proof (indexOf_Some _ _ _ Hi) as Hat.
    destruct (splice_NoDup _ _ _ Hnd Hat) as (Hgone & Hsub & _).
    split.
    + rewrite delete_take_drop.
      rewrite <- (take_drop_middle _ _ _ Hat) in Hnd.
      apply NoDup_app in Hnd as (H1 & H12 & H2).
      apply NoDup_cons in H2 as [_ H2]. apply NoDup_app.
      split; [done|]. split; [|done].
      intros x Hx Hx2. apply (H12 x Hx). by right.
    + intros x Hx. rewrite lookup_delete_ne by (by intros ->).
      by apply Hst, Hsub.
  - apply indexOf_None in Hi. split; [done|].
    intros x Hx. rewrite lookup_delete_ne by (by intros ->). by apply Hst.
Qed.

Lemma lru_step_wf (op : LruOp V) c : lru_wf c -> lru_wf (lru_step op c).
Proof.
  destruct op; cbn [lru_step];
    [apply lru_set_wf | apply lru_get_wf | apply lru_delete_wf |].
  intros _. split; cbn; [constructor|]. intros x Hx. by apply elem_of_nil in Hx.
Qed.

(** *** The queue never outgrows the bound *)

Lemma lru_hit_length (N : nat) k c :
  maxSize c = num_of_nat N -> (length (queue c) <= N)%nat ->
  (length (queue (lru_hit k c)) <= N)%nat.
Proof.
  intros Hmax Hlen. unfold lru_hit.
  destruct (indexOf k (queue c)) as [i|] eqn:Hi; cbn [queue].
  - pose proof (indexOf_Some _ _ _ Hi) as Hat.
    rewrite length_app, length_delete by eauto. simpl.
    apply lookup_lt_Some in Hat. lia.
  - rewrite Hmax, js_gt_nat. case_bool_decide as Hfull; cbn [queue].
    + destruct (queue c) as [|ke q']; cbn [app queue].
      * simpl. lia.
      * rewrite length_app in *. simpl in *. lia.
    + lia.
Qed.

Lemma lru_step_length (N : nat) (op : LruOp V) c :
  maxSize c = num_of_nat N -> (length (queue c) <= N)%nat ->
  maxSize (lru_step op c) = num_of_nat N /\
  (length (queue (lru_step op c)) <= N)%nat.
Proof.
  intros Hmax Hlen. destruct op as [k v|k|k|]; cbn [lru_step].
  - unfold lru_set. cbn [queue maxSize]. rewrite lru_hit_maxSize.
    split; [done | by apply lru_hit_length].
  - unfold lru_get. cbn [snd]. destruct (lru_has k c); [|done].
    rewrite lru_hit_maxSize. split; [done | by apply lru_hit_length].
  - unfold lru_delete, lru_evict. cbn [snd].
    destruct (indexOf k (queue c)) as [i|] eqn:Hi; cbn [queue maxSize];
      [|done].
    split; [done|]. pose proof (length_delete (queue c) i) as Hd.
    rewrite Hd by (rewrite (indexOf_Some _ _ _ Hi); eauto). lia.
  - split; [done | simpl; lia].
Qed.

(** *** With truthy keys the storage holds exactly the queued keys *)

Lemma lru_step_tight (N : nat) (op : LruOp V) c :
  (1 <= N)%nat -> maxSize c = num_of_nat N ->
  lru_wf c -> lru_tight c ->
  match op with LSet k _ => key_truthy k = true | _ => True end ->
  lru_tight (lru_step op c).
Proof.
  intros HN Hmax [Hnd Hst] Htight Hop.
  destruct op as [k v|k|k|]; cbn [lru_step].
  - unfold lru_set. intros x. cbn [queue storage].
    destruct (decide (k ∈ queue c)) as [Hin|Hout].
    + destruct (lru_hit_queued k c Hnd Hin) as (l1 & l2 & Hq & ->).
      cbn [queue storage]. rewrite lookup_insert.
      destruct (decide (k = x)) as [<-|Hne].
      * intros _. split; [|done]. apply elem_of_rotate, elem_of_app.
        right. left.
      * intros Hx. destruct (Htight x Hx) as [Hxq Hxt]. split; [|done].
        rewrite Hq in Hxq. by apply elem_of_rotate.
    + rewrite lru_hit_fresh by done. rewrite Hmax, js_gt_nat.
      case_bool_decide as Hfull.
      * destruct (queue c) as [|ke q'] eqn:Hq; [simpl in Hfull; lia|].
        cbn [queue storage]. rewrite lookup_insert.
        destruct (decide (k = x)) as [<-|Hne].
        -- intros _. split; [|done]. apply elem_of_app. right. left.
        -- assert (Hke : key_truthy ke = true).
           { apply Htight, Hst. rewrite ?Hq. left. }
           rewrite Hke. intros Hx.
           destruct (decide (ke = x)) as [<-|Hne'];
             [rewrite lookup_delete_eq in Hx; by destruct Hx|].
           rewrite lookup_delete_ne in Hx by done.
           destruct (Htight x Hx) as [Hxq Hxt]. split; [|done].
           rewrite ?Hq in Hxq. apply elem_of_cons in Hxq as [->|Hxq]; [done|].
           apply elem_of_app. by left.
      * cbn [queue storage]. rewrite lookup_insert.
        destruct (decide (k = x)) as [<-|Hne].
        -- intros _. split; [|done]. apply elem_of_app. right. left.
        -- intros Hx. destruct (Htight x Hx) as [Hxq Hxt]. split; [|done].
           apply elem_of_app. by left.
  - unfold lru_get, lru_has. cbn [snd]. case_bool_decide as Hk; [|done].
    destruct (Htight k Hk) as [Hin _].
    destruct (lru_hit_queued k c Hnd Hin) as (l1 & l2 & Hq & ->).
    intros x Hx. cbn [queue storage] in *.
    destruct (Htight x Hx) as [Hxq Hxt]. split; [|done].
    rewrite Hq in Hxq. by apply elem_of_rotate.
  - unfold lru_delete, lru_evict. cbn [snd]. intros x.
    destruct (indexOf k (queue c)) as [i|] eqn:Hi; cbn [queue storage].
    + pose proof (indexOf_Some _ _ _ Hi) as Hat.
      destruct (splice_NoDup _ _ _ Hnd Hat) as (_ & _ & Hsup).
      destruct (decide (k = x)) as [<-|Hne];
        [rewrite lookup_delete_eq; by intros [? ?]|].
      rewrite lookup_delete_ne by done. intros Hx.
      destruct (Htight x Hx) as [Hxq Hxt]. split; [|done].
      apply Hsup; [done | by intros ->].
    + destruct (decide (k = x)) as [<-|Hne];
        [rewrite lookup_delete_eq; by intros [? ?]|].
      rewrite lookup_delete_ne by done. apply Htight.
  - intros x. cbn. rewrite lookup_empty. by intros [? ?].
Qed.

Lemma lru_new_wf (n : option JsNumber) : lru_wf (lru_new (V := V) n).
Proof.
  split; cbn; [constructor|]. intros k Hk. by apply elem_of_nil in Hk.
Qed.

Lemma lru_new_tight (n : option JsNumber) : lru_tight (lru_new (V := V) n).
Proof. intros k. cbn. rewrite lookup_empty. by intros [? ?]. Qed.

Lemma lru_run_snoc (ops : list (LruOp V)) op c :
  lru_run (ops ++ [op]) c = lru_step op (lru_run ops c).
Proof. unfold lru_run. by rewrite foldl_snoc. Qed.

(** X1.  Whatever the bound and whatever sequence of [set], [get],
    [delete] and [clear] a fresh cache has seen, its queue holds no key
    twice and every queued key is stored. *)
Theorem lru_run_well_formed (n : option JsNumber) (ops : list (LruOp V)) :
  NoDup (queue (lru_run ops (lru_new n))) /\
  forall k, k ∈ queue (lru_run ops (lru_new n)) ->
            lru_has k (lru_run ops (lru_new n)) = true.
Proof.
  assert (Hwf : lru_wf (lru_run ops (lru_new n))).
  { induction ops as [|op ops IH] using rev_ind; [apply lru_new_wf|].
    rewrite lru_run_snoc. by apply lru_step_wf. }
  destruct Hwf as [Hnd Hst]. split; [done|].
  intros k Hk. unfold lru_has. apply bool_decide_eq_true. by apply Hst.
Qed.

(** X2.  A cache built with a bound [N >= 1] never queues more than [N]
    keys.  If only truthy keys are ever [set], the stored keys are exactly
    the queued ones, so the cache never holds more than [N] entries. *)
Theorem lru_run_bounded (N : nat) (ops : list (LruOp V)) :
  (1 <= N)%nat ->
  let c := lru_run ops (lru_new (Some (num_of_nat N))) in
  (length (queue c) <= N)%nat /\
  (truthy_sets ops ->
   (forall k, lru_has k c = true <-> k ∈ queue c) /\
   size (storage c) = length (queue c) /\
   (size (storage c) <= N)%nat).
Proof.
  intros HN c. subst c. rewrite lru_new_bound by done.
  set (c0 := mkLru (V := V) ∅ [] (num_of_nat N)).
  assert (Hlen : forall ops, maxSize (lru_run ops c0) = num_of_nat N /\
                             (length (queue (lru_run ops c0)) <= N)%nat).
  { intros l. induction l as [|op l IH] using rev_ind; [simpl; split; [done|lia]|].
    rewrite lru_run_snoc. destruct IH. by apply lru_step_length. }
  assert (Hwf : forall ops, lru_wf (lru_run ops c0)).
  { intros l. induction l as [|op l IH] using rev_ind.
    - split; cbn; [constructor|]. intros k Hk. by apply elem_of_nil in Hk.
    - rewrite lru_run_snoc. by apply lru_step_wf. }
  split; [apply Hlen|]. intros Hops.
  assert (Htight : lru_tight (lru_run ops c0)).
  { induction ops as [|op ops IH] using rev_ind.
    - intros k. cbn. rewrite lookup_empty. by intros [? ?].
    - apply Forall_app in Hops as [Hops Hop]. apply Forall_inv in Hop.
      rewrite lru_run_snoc.
      apply (lru_step_tight N);
        [done|apply Hlen|apply Hwf|by apply IH|exact Hop]. }
  destruct (Hwf ops) as [Hnd Hst]. destruct (Hlen ops) as [_ Hle].
  assert (Hiff : forall k, lru_has k (lru_run ops c0) = true
                           <-> k ∈ queue (lru_run ops c0)).
  { intros k. unfold lru_has. rewrite bool_decide_eq_true. split.
    - intros Hk. by apply Htight.
    - apply Hst. }
  assert (Hsize : size (storage (lru_run ops c0))
                  = length (queue (lru_run ops c0))).
  { rewrite <- (size_dom (D := gset CacheKey)).
    rewrite <- (size_list_to_set (C := gset CacheKey)) by done.
    f_equal. apply set_eq. intros k.
    rewrite elem_of_dom, elem_of_list_to_set, <- Hiff.
    unfold lru_has. by rewrite bool_decide_eq_true. }
  split; [done|]. split; [done|]. by rewrite Hsize.
Qed.

(** X3.  On a key that is not stored, [has] answers [false], [get]
    returns nothing and [delete] answers [false]; neither changes the
    cache. *)
Theorem lru_absent_key_noop k c :
  lru_wf c -> storage c !! k = None ->
  lru_has k c = false /\ lru_get k c = (None, c) /\ lru_delete k c = (false, c).
Proof.
  intros [Hnd Hst] Hk.
  assert (Hhas : lru_has k c = false).
  { unfold lru_has. apply bool_decide_eq_false. rewrite Hk. by intros [? ?]. }
  split; [done|]. split.
  - unfold lru_get. by rewrite Hhas, Hk.
  - assert (Hq : k ∉ queue c).
    { intros Hin. apply Hst in Hin. rewrite Hk in Hin. by destruct Hin. }
    apply indexOf_None in Hq. unfold lru_delete, lru_evict. rewrite Hq.
    rewrite delete_id, Hk by done.
    f_equal; first [by destruct c | apply bool_decide_eq_false; by intros [? ?]].
Qed.

(** X4.  [set] and [get] on a queued key evict nothing, whatever the
    bound: the key moves to the newest end of the queue, the other keys
    keep their order, and the storage changes only by the value [set]
    writes. *)
Theorem lru_touch_queued k (v : V) c :
  lru_wf c -> k ∈ queue c ->
  exists l1 l2,
    queue c = l1 ++ k :: l2 /\
    lru_set k v c
    = mkLru (<[k := v]> (storage c)) (l1 ++ l2 ++ [k]) (maxSize c) /\
    lru_get k c
    = (storage c !! k, mkLru (storage c) (l1 ++ l2 ++ [k]) (maxSize c)).
Proof.
  intros [Hnd Hst] Hin.
  destruct (lru_hit_queued k c Hnd Hin) as (l1 & l2 & Hq & Hhit).
  exists l1, l2. split; [done|]. split.
  - unfold lru_set. by rewrite Hhit.
  - unfold lru_get, lru_has.
    rewrite bool_decide_eq_true_2 by (by apply Hst). by rewrite Hhit.
Qed.

(** X5.  [set] of a key that is not queued, on a cache whose queue is
    full: the key at the head of the queue is the only one to leave the
    queue, and if it is truthy its entry is gone; every other entry is
    untouched and the new pair is stored. *)
Theorem lru_set_full_evicts_head (N : nat) k (v : V) c ke q' :
  maxSize c = num_of_nat N ->
  queue c = ke :: q' -> length (queue c) = N -> k ∉ queue c ->
  let c' := lru_set k v c in
  queue c' = q' ++ [k] /\
  storage c' !! k = Some v /\
  (key_truthy ke = true -> lru_has ke c' = false) /\
  forall x, x <> k -> x <> ke -> storage c' !! x = storage c !! x.
Proof.
  intros Hmax Hq Hlen Hk c'. subst c'.
  assert (Hc : c = mkLru (storage c) (ke :: q') (num_of_nat N)).
  { destruct c. cbn in *. by subst. }
  rewrite Hq in Hlen, Hk.
  rewrite Hc, (lru_set_overflow N) by done. cbn [queue storage].
  split; [done|]. split; [apply lookup_insert_eq|]. split.
  - intros Htruthy. unfold lru_has. cbn [storage].
    apply bool_decide_eq_false.
    rewrite overflow_lookup_evicted; [by intros [? ?]|done|].
    intros ->. apply Hk. left.
  - intros x Hxk Hxke. by apply overflow_lookup_ne.
Qed.

(** X6.  [delete] of a queued key frees its place: a [set] of a new key
    right after it evicts nothing, even if the cache was full. *)
Theorem lru_delete_frees_slot (N : nat) k k' (v : V) c :
  maxSize c = num_of_nat N -> (length (queue c) <= N)%nat ->
  lru_wf c -> k ∈ queue c -> k' ∉ queue c ->
  let c' := lru_set k' v (snd (lru_delete k c)) in
  storage c' = <[k' := v]> (delete k (storage c)) /\
  length (queue c') = length (queue c) /\
  last (queue c') = Some k'.
Proof.
  intros Hmax Hlen [Hnd Hst] Hin Hout c'. subst c'.
  destruct (indexOf_elem_of k _ Hin) as [i Hi].
  pose proof (indexOf_Some _ _ _ Hi) as Hat.
  destruct (splice_NoDup _ _ _ Hnd Hat) as (_ & Hsub & _).
  unfold lru_delete, lru_evict. rewrite Hi. cbn [snd queue storage maxSize].
  unfold lru_set. rewrite lru_hit_fresh by (cbn; intros Hx; by apply Hout, Hsub).
  cbn [queue storage maxSize]. rewrite Hmax, js_gt_nat.
  assert (Hdel : S (length (delete i (queue c))) = length (queue c)).
  { rewrite length_delete by eauto. apply lookup_lt_Some in Hat. lia. }
  rewrite bool_decide_eq_false_2 by lia. cbn [queue storage].
  split; [done|]. split; [|apply last_snoc].
  rewrite length_app. simpl. lia.
Qed.
End lru_use.

(** ** The wrapper's other operations *)
Section engine_use.
Context `{Host}.
Variable cfg : Config.

Lemma set_cache_same st : set_cache (cache st) st = st.
Proof. by destruct st. Qed.

Lemma cache_delete_room k c :
  cache_has_room (snd (ic_delete k c)) = cache_has_room c.
Proof.
  destruct c as [l|m]; [|done]. cbn [ic_delete Cache_ICache snd cache_has_room].
  unfold lru_delete, lru_evict. cbn [snd maxSize].
  by destruct (indexOf k (queue l)).
Qed.

Lemma cache_clear_room c : cache_has_room (ic_clear c) = cache_has_room c.
Proof. by destruct c. Qed.

Lemma cache_get_missing k c :
  cache_lookup k c = None -> ic_get k c = (None, c).
Proof.
  destruct c as [l|m]; cbn [ic_get Cache_ICache cache_lookup]; intros Hk.
  - destruct (lru_absent k l Hk) as [Hhas Hget].
    unfold lru_get in *. rewrite Hhas in *. cbn [fst snd] in *.
    by rewrite Hget.
  - by rewrite Hk.
Qed.

Lemma cache_has_false k c :
  cache_lookup k c = None -> ic_has k c = false.
Proof.
  intros Hk. rewrite cache_has_lookup, Hk. apply bool_decide_eq_false.
  by intros [? ?].
Qed.

Lemma cache_has_true k i c :
  cache_lookup k c = Some i -> ic_has k c = true.
Proof.
  intros Hk. rewrite cache_has_lookup, Hk. apply bool_decide_eq_true. eauto.
Qed.


(** [applyTimeout] in closed form. *)
Lemma applyTimeout_exact env nt st :
  applyTimeout env nt st
  = (Normal tt,
     match scopes st !! env with
     | Some sc =>
         set_scopes (<[env := mkScope (s_key sc) (handle_for nt)]> (scopes st)) st
     | None => st
     end).
Proof.
  unfold applyTimeout, bind, cancelTimeout.
  destruct (scopes st !! env) as [[k tm]|] eqn:Hsc; cbn [s_key s_timer].
  - assert (Hlt : (env < length (scopes st))%nat)
      by (eapply lookup_lt_Some; eassumption).
    destruct tm as [tm|].
    + unfold set_timer at 1. rewrite Hsc. cbn [s_key].
      destruct nt as [n|]; cbn [handle_for]; [|done].
      unfold timer_for. destruct (is_Infinity n); [done|].
      unfold set_timer. cbn [scopes set_scopes].
      rewrite list_lookup_insert_eq by done. cbn [s_key].
      unfold set_scopes. cbn. by rewrite list_insert_insert_eq.
    + destruct nt as [n|]; cbn [handle_for].
      * unfold timer_for. destruct (is_Infinity n).
        -- unfold ret. rewrite list_insert_id by done. by rewrite set_scopes_id.
        -- unfold set_timer. by rewrite Hsc.
      * unfold ret. rewrite list_insert_id by done. by rewrite set_scopes_id.
  - destruct nt as [n|]; [|done]. destruct (is_Infinity n); [done|].
    unfold set_timer. by rewrite Hsc.
Qed.

(** X8.  [ttl(t)] leaves the item's scope with exactly the handle for
    [t], whatever timer was pending before, and touches neither another
    scope nor the cache; so of two [ttl] calls in a row only the second
    counts. *)
Theorem ttl_replaces_timer (env : nat) (nt nt2 : NewTimeout) (st : State)
    (sc : Scope) :
  scopes st !! env = Some sc ->
  let st' := snd (applyTimeout env nt st) in
  scopes st' !! env = Some (mkScope (s_key sc) (handle_for nt)) /\
  (forall j, j <> env -> scopes st' !! j = scopes st !! j) /\
  cache st' = cache st /\
  applyTimeout env nt2 st' = applyTimeout env nt2 st.
Proof.
  intros Hsc st'. subst st'.
  assert (Hlt : (env < length (scopes st))%nat)
    by (eapply lookup_lt_Some; eassumption).
  rewrite !applyTimeout_exact, Hsc. cbn [snd scopes set_scopes cache].
  rewrite list_lookup_insert_eq by done. cbn [s_key].
  split; [done|]. split; [|split; [done|]].
  - intros j Hj. by rewrite list_lookup_insert_ne.
  - rewrite list_insert_insert_eq. done.
Qed.

Lemma read_value_missing_exact key st :
  cache_lookup key (cache st) = None ->
  read_value key st = (Throw TypeError, st).
Proof.
  intros Hk. unfold read_value, bind, cache_get.
  rewrite (cache_get_missing _ _ Hk). cbn [fst snd].
  unfold throw. by rewrite set_cache_same.
Qed.

(** A timer that fires while the cache is alive. *)
Lemma fire_pending env key tm st :
  collected st = false ->
  scopes st !! env = Some (mkScope key (Some tm)) ->
  exists s',
    fire_timer env st
    = (Normal tt,
       set_cache (snd (ic_delete key (cache st))) (set_scopes s' st)).
Proof.
  intros Halive Hsc. unfold fire_timer. rewrite Hsc. cbn [s_timer].
  destruct (clear_spec env st) as (s' & -> & _).
  rewrite Halive, Hsc. by exists s'.
Qed.

(** X9.  When the timer of a populated entry fires, the entry is gone;
    the next call with the same arguments runs the callee again and caches
    its new result. *)
Theorem expiry_then_recompute (args : list JsValue) (st : State) (q : Q)
    (v1 v2 : JsValue) :
  timeout cfg = Some (Fin q) -> js_lt (Fin q) (num_of_nat 1) = false ->
  ic_has (key_of cfg args) (cache st) = false ->
  func cfg (calls st) args = Normal v1 ->
  func cfg (calls st ++ [args]) args = Normal v2 ->
  cache_has_room (cache st) = true ->
  o_onCached (options cfg) = None ->
  collected st = false ->
  let st1 := snd (invoke cfg args st) in
  let st2 := snd (fire_timer (length (scopes st)) st1) in
  let r3 := invoke cfg args st2 in
  ic_has (key_of cfg args) (cache st1) = true /\
  ic_has (key_of cfg args) (cache st2) = false /\
  fst r3 = Normal v2 /\
  calls (snd r3) = calls st ++ [args; args] /\
  ic_has (key_of cfg args) (cache (snd r3)) = true.
Proof.
  intros Ht Hge Hmiss Hv1 Hv2 Hroom Hobs Halive st1 st2 r3.
  assert (Hto : no_timeout cfg = false).
  { eapply at_least_one_caches; [done| |done]. by apply at_least_one_truthy. }
  destruct (invoke_populates cfg _ args st v1 Ht Hto Hmiss Hv1 Hroom Hobs)
    as [Hrun Hhas1].
  subst r3 st2 st1. rewrite Hrun. cbn [snd].
  set (key := key_of cfg args) in *.
  set (item := mkItem key v1 (length (scopes st))) in *.
  set (st1 := mkState _ _ _ _ _ _).
  destruct (fire_pending (length (scopes st)) key (mkTimeout (Fin q) true) st1)
    as [s' Hfire]; [done| |].
  { subst st1. cbn [scopes]. by apply list_lookup_middle. }
  rewrite Hfire. cbn [snd].
  set (st2 := set_cache _ _).
  assert (Hgone : cache_lookup key (cache st2) = None).
  { subst st2 st1. cbn [cache set_cache]. rewrite cache_delete_lookup.
    by rewrite decide_True. }
  assert (Hroom2 : cache_has_room (cache st2) = true).
  { subst st2 st1. cbn [cache set_cache set_scopes].
    rewrite cache_delete_room.
    destruct (cache_get_stored key item (ic_set key item (cache st)))
      as (_ & _ & Hr); [by rewrite cache_set_room|apply cache_set_lookup_eq|done]. }
  destruct (invoke_populates cfg _ args st2 v2 Ht Hto) as [Hrun2 Hhas2];
    [by apply cache_has_false|exact Hv2|done|done|].
  rewrite Hrun2. cbn [fst snd cache calls].
  split; [done|]. split; [by apply cache_has_false|]. split; [done|].
  split; [|done]. subst st2 st1. cbn [calls set_cache set_scopes].
  by rewrite <- app_assoc.
Qed.

(** X10.  [clearCache] cancels no timer.  After a populated entry has
    been cleared and the same arguments have populated a new one, the
    first entry's timer is still pending, and when it fires it removes
    the new entry. *)
Theorem stale_timer_evicts_new_entry (args cargs : list JsValue) (st : State)
    (q : Q) (v1 v2 : JsValue) :
  timeout cfg = Some (Fin q) -> js_lt (Fin q) (num_of_nat 1) = false ->
  ic_has (key_of cfg args) (cache st) = false ->
  func cfg (calls st) args = Normal v1 ->
  func cfg (calls st ++ [args]) args = Normal v2 ->
  cache_has_room (cache st) = true ->
  o_onCached (options cfg) = None ->
  collected st = false ->
  cargs = [] \/ key_of cfg cargs = key_of cfg args ->
  let st1 := snd (invoke cfg args st) in
  let st2 := snd (clearCache cfg cargs st1) in
  let r3 := invoke cfg args st2 in
  let st4 := snd (fire_timer (length (scopes st)) (snd r3)) in
  scopes st2 = scopes st1 /\
  ic_has (key_of cfg args) (cache st2) = false /\
  fst r3 = Normal v2 /\
  ic_has (key_of cfg args) (cache (snd r3)) = true /\
  ic_has (key_of cfg args) (cache st4) = false.
Proof.
  intros Ht Hge Hmiss Hv1 Hv2 Hroom Hobs Halive Hcargs st1 st2 r3 st4.
  assert (Hto : no_timeout cfg = false).
  { eapply at_least_one_caches; [done| |done]. by apply at_least_one_truthy. }
  destruct (invoke_populates cfg _ args st v1 Ht Hto Hmiss Hv1 Hroom Hobs)
    as [Hrun Hhas1].
  subst st4 r3 st2 st1. rewrite Hrun. cbn [snd].
  set (key := key_of cfg args) in *.
  set (item := mkItem key v1 (length (scopes st))) in *.
  set (st1 := mkState _ _ _ _ _ _).
  destruct (cache_get_stored key item (ic_set key item (cache st)))
    as (_ & _ & Hroom1); [by rewrite cache_set_room|apply cache_set_lookup_eq|].
  set (st2 := snd (clearCache cfg cargs st1)).
  assert (Hst2 : scopes st2 = scopes st1 /\ calls st2 = calls st1 /\
                 collected st2 = collected st1 /\
                 cache_lookup key (cache st2) = None /\
                 cache_has_room (cache st2) = true).
  { subst st2. unfold clearCache. case_bool_decide as Hlen.
    - unfold cache_clear. cbn [snd cache scopes calls collected set_cache].
      rewrite cache_clear_lookup, cache_clear_room. done.
    - destruct Hcargs as [->|Hk]; [simpl in Hlen; lia|].
      unfold cache_delete. cbn [snd cache scopes calls collected set_cache].
      rewrite Hk. fold key. rewrite cache_delete_lookup, cache_delete_room.
      by rewrite decide_True. }
  destruct Hst2 as (Hsc2 & Hcalls2 & Hcol2 & Hgone2 & Hroom2).
  split; [done|]. split; [by apply cache_has_false|].
  destruct (invoke_populates cfg _ args st2 v2 Ht Hto) as [Hrun3 Hhas3];
    [by apply cache_has_false|by rewrite Hcalls2|done|done|].
  rewrite Hrun3. cbn [fst snd cache].
  split; [done|]. split; [done|].
  set (st3 := mkState _ _ _ _ _ _).
  destruct (fire_pending (length (scopes st)) key (mkTimeout (Fin q) true) st3)
    as [s' Hfire].
  { subst st3. cbn [collected]. by rewrite Hcol2. }
  { subst st3. cbn [scopes]. rewrite Hsc2. subst st1. cbn [scopes].
    rewrite lookup_app_l by (rewrite length_app; simpl; lia).
    by apply list_lookup_middle. }
  rewrite Hfire. cbn [snd cache set_cache].
  apply cache_has_false. rewrite cache_delete_lookup. by rewrite decide_True.
Qed.

(** What an observer's operations do to the entry under the item's key. *)
Lemma observer_run item ops st k :
  (s_key <$> scopes st) !! item_scope item = Some k ->
  exists st',
    for_each (run_op item) ops st = (Normal tt, st') /\
    collected st' = collected st /\ calls st' = calls st /\
    s_key <$> scopes st' = s_key <$> scopes st /\
    (cache_lookup k (cache st) = None -> cache_lookup k (cache st') = None) /\
    (collected st = false -> OpClear ∈ ops ->
     cache_lookup k (cache st') = None).
Proof.
  revert st. induction ops as [|op ops IH]; intros st Hk.
  - exists st. repeat split; try done. intros _ Hin. by apply elem_of_nil in Hin.
  - cbn [for_each]. destruct op as [|t]; cbn [run_op].
    + destruct (clear_spec (item_scope item) st) as (s' & Hclear & Hkeys).
      rewrite (bind_normal _ _ _ _ _ Hclear).
      set (st1 := set_cache _ _).
      assert (Hk1 : (s_key <$> scopes st1) !! item_scope item = Some k).
      { subst st1. cbn [scopes set_cache set_scopes]. by rewrite Hkeys. }
      destruct (IH st1 Hk1) as (st' & Hrun & Hcol & Hcalls & Hsk & Hmono & _).
      assert (Hcache1 : collected st = false ->
                        cache_lookup k (cache st1) = None).
      { intros Halive. subst st1. cbn [cache set_cache]. rewrite Halive.
        rewrite list_lookup_fmap in Hk.
        destruct (scopes st !! item_scope item) as [sc|]; [|done].
        injection Hk as <-. rewrite cache_delete_lookup.
        by rewrite decide_True. }
      exists st'. split; [done|]. split; [done|]. split; [done|].
      split; [by rewrite Hsk; subst st1; cbn [scopes set_cache set_scopes]|].
      split; [|by intros Halive _; apply Hmono, Hcache1].
      intros Hnone. apply Hmono. subst st1. cbn [cache set_cache].
      destruct (collected st); [done|].
      destruct (scopes st !! item_scope item); [|done].
      rewrite cache_delete_lookup. by destruct (decide _).
    + destruct (applyTimeout_scopes (item_scope item) t st) as (s1 & Hs1 & Hk1).
      rewrite (bind_normal _ _ _ _ _ Hs1).
      destruct (IH (set_scopes s1 st)) as (st' & Hrun & Hcol & Hcalls & Hsk & Hmono & Hgone).
      { cbn [scopes set_scopes]. by rewrite Hk1. }
      exists st'. split; [done|]. split; [done|]. split; [done|].
      split; [by rewrite Hsk; cbn [scopes set_scopes]|]. split; [done|].
      intros Halive Hin. apply Hgone; [done|].
      by apply elem_of_cons in Hin as [?|?].
Qed.

(** X11.  If the [onCached] observer calls [item.clear()], the populating
    call throws a [TypeError] when it reads the entry back: the callee has
    run, but the caller gets no value and nothing stays cached under the
    key. *)
Theorem observer_clear_throws (args : list JsValue) (st : State)
    (obs : CacheItem -> list ItemOp) (v : JsValue) :
  no_timeout cfg = false ->
  o_onCached (options cfg) = Some obs ->
  collected st = false ->
  ic_has (key_of cfg args) (cache st) = false ->
  func cfg (calls st) args = Normal v ->
  OpClear ∈ obs (mkItem (key_of cfg args) v (length (scopes st))) ->
  let r := invoke cfg args st in
  fst r = Throw TypeError /\
  calls (snd r) = calls st ++ [args] /\
  ic_has (key_of cfg args) (cache (snd r)) = false.
Proof.
  intros Hto Hobs Halive Hmiss Hv Hclears r. subst r.
  destruct (invoke_caching cfg args st Hto) as (t & Ht & ->). rewrite Hmiss.
  rewrite (populate_prefix cfg _ _ _ _ _ Hv).
  set (key := key_of cfg args) in *.
  set (item := mkItem key v (length (scopes st))) in *.
  set (st0 := mkState _ _ _ _ _ _).
  assert (Hobserved : exists st',
            getOnCached cfg item st0 = (Normal tt, st') /\
            calls st' = calls st0 /\ cache_lookup key (cache st') = None).
  { unfold getOnCached, call_observer. rewrite Hobs.
    assert (Hrun : forall st1,
              scopes st1 = scopes st0 -> collected st1 = false ->
              exists st', for_each (run_op item) (obs item) st1 = (Normal tt, st')
                          /\ calls st' = calls st1
                          /\ cache_lookup key (cache st') = None).
    { intros st1 Hsc Hcol.
      destruct (observer_run item (obs item) st1 key)
        as (st' & Hrun & _ & Hcalls & _ & _ & Hgone).
      { rewrite Hsc. subst st0. cbn [scopes item_scope item].
        rewrite fmap_app. apply list_lookup_middle. by rewrite length_fmap. }
      exists st'. split; [done|]. split; [done|]. by apply Hgone. }
    destruct (o_rejectFailedPromise (options cfg)) as [[|]|];
      rewrite ?(bind_normal _ _ _ _ _ (rejectFailedPromise_catchers item st0));
      match goal with
      | |- context [for_each _ _ ?s] =>
          destruct (Hrun s) as (st' & Hr & Hc & Hg);
            [reflexivity | exact Halive |]
      end; exists st'; (split; [exact Hr|]); (split; [exact Hc|exact Hg]). }
  destruct Hobserved as (st' & Hon & Hcalls & Hgone).
  rewrite (bind_normal _ _ _ _ _ Hon), (read_value_missing_exact _ _ Hgone).
  cbn [fst snd]. split; [done|]. split; [by rewrite Hcalls|].
  by apply cache_has_false.
Qed.

(** X12.  With the default resolver the key does not record the type of
    a single primitive argument: [a] and the string [String(a)] resolve to
    the same key.  Any other number of arguments resolves to the hash of
    the argument array. *)
Theorem default_keys_type_blind :
  o_resolver (options cfg) = None ->
  (forall a, typeof a <> "object" \/ js_truthy a = false ->
             key_of cfg [a] = KStr (js_String a) /\
             key_of cfg [a] = key_of cfg [VStr (js_String a)]) /\
  (forall args, length args <> 1%nat ->
                key_of cfg args = KNum (hash (VArr args))).
Proof.
  intros Hres. unfold key_of, resolver, defaultResolver. rewrite Hres.
  split.
  - intros a Ha.
    assert (Hkey : toResolverKey (VArr [a]) = KStr (js_String a)).
    { destruct a; try done; destruct Ha as [Ha|Ha]; done. }
    by rewrite Hkey.
  - intros args Hlen. destruct args as [|a [|b args]]; done.
Qed.

(** X13.  An LRU cache whose bound is below 1 evicts each key as soon as
    it is touched.  On such a cache with an empty queue, a call whose key
    is truthy and not stored runs the callee and then throws a
    [TypeError]; the cache is afterwards exactly what it was, so every
    later call fails the same way. *)
Theorem bound_below_one_throws (args : list JsValue) (st : State)
    (l : LruCache CacheItem) (v : JsValue) :
  no_timeout cfg = false ->
  o_onCached (options cfg) = None ->
  cache st = LruC l -> queue l = [] ->
  js_lt (maxSize l) (num_of_nat 1) = true ->
  storage l !! key_of cfg args = None ->
  key_truthy (key_of cfg args) = true ->
  func cfg (calls st) args = Normal v ->
  let r := invoke cfg args st in
  fst r = Throw TypeError /\
  cache (snd r) = cache st /\
  calls (snd r) = calls st ++ [args].
Proof.
  intros Hto Hobs Hc Hq Hlow Hk Htruthy Hv r. subst r.
  destruct (invoke_caching cfg args st Hto) as (t & Ht & ->).
  rewrite (cache_has_false (key_of cfg args) (cache st))
    by (by rewrite Hc).
  rewrite (populate_prefix cfg _ _ _ _ _ Hv).
  set (key := key_of cfg args) in *.
  set (item := mkItem key v (length (scopes st))).
  rewrite (bind_normal _ _ _ _ _ (getOnCached_no_observer cfg item _ Hobs)).
  rewrite Hc. cbn [ic_set Cache_ICache set_catchers cache collected scopes
                     catchers rejections calls].
  assert (Hl : l = mkLru (storage l) [] (maxSize l))
    by (destruct l; cbn in *; by subst).
  assert (Hset : lru_set key item l
                 = mkLru (<[key := item]> (storage l)) [] (maxSize l)).
  { unfold lru_set. rewrite lru_hit_fresh by (rewrite Hq; apply not_elem_of_nil).
    rewrite Hq. cbn [length]. unfold js_gt. rewrite Hlow, Htruthy.
    cbn [storage queue maxSize]. by rewrite delete_id. }
  rewrite Hset.
  set (l1 := mkLru _ _ _).
  assert (Hget : lru_get key l1 = (None, l)).
  { unfold lru_get, lru_has. subst l1. cbn [storage].
    rewrite bool_decide_eq_true_2 by (rewrite lookup_insert_eq; eauto).
    rewrite lru_hit_fresh by apply not_elem_of_nil.
    cbn [queue length maxSize storage]. unfold js_gt. rewrite Hlow, Htruthy.
    cbn [storage]. rewrite lookup_delete_eq, delete_insert_id by done.
    by rewrite <- Hl. }
  unfold read_value, bind, cache_get.
  cbn [cache set_catchers ic_get Cache_ICache fst snd]. rewrite Hget.
  cbn [fst snd].
  unfold throw. cbn [fst snd cache set_cache calls]. done.
Qed.
End engine_use.

(** ** The further properties at concrete inputs *)

Lemma lru_run_well_formed_witness :
  lru_has (KNum 7) (lru_run lru_ops (lru_new (Some (num_of_nat 2)))) = true.
Proof.
  apply (proj2 (lru_run_well_formed (Some (num_of_nat 2)) lru_ops)).
  refine (bool_decide_unpack _ _). vm_compute. exact I.
Defined.

Lemma lru_run_bounded_witness :
  let c := lru_run lru_ops (lru_new (Some (num_of_nat 2))) in
  (length (queue c) <= 2)%nat /\ (size (storage c) <= 2)%nat.
Proof.
  destruct (lru_run_bounded 2 lru_ops) as [Hlen Hsize]; [lia|].
  destruct Hsize as (_ & _ & Hle); [repeat constructor|].
  exact (conj Hlen Hle).
Defined.

Lemma lru_absent_key_noop_witness :
  lru_get (KStr "zz") lru_ab = (None, lru_ab) /\
  lru_delete (KStr "zz") lru_ab = (false, lru_ab).
Proof.
  destruct (lru_absent_key_noop (KStr "zz") lru_ab) as (_ & Hget & Hdel).
  - apply lru_set_wf, lru_set_wf, lru_new_wf.
  - reflexivity.
  - exact (conj Hget Hdel).
Defined.

Lemma lru_touch_queued_witness :
  exists l1 l2,
    queue lru_ab = l1 ++ KStr "a" :: l2 /\
    lru_set (KStr "a") 9%nat lru_ab
    = mkLru (<[KStr "a" := 9%nat]> (storage lru_ab))
            (l1 ++ l2 ++ [KStr "a"]) (maxSize lru_ab) /\
    lru_get (KStr "a") lru_ab
    = (storage lru_ab !! KStr "a",
       mkLru (storage lru_ab) (l1 ++ l2 ++ [KStr "a"]) (maxSize lru_ab)).
Proof.
  apply (lru_touch_queued (KStr "a") 9%nat lru_ab).
  - apply lru_set_wf, lru_set_wf, lru_new_wf.
  - refine (bool_decide_unpack _ _). vm_compute. exact I.
Defined.

Lemma lru_set_full_evicts_head_witness :
  let c' := lru_set (KStr "c") 3%nat lru_ab in
  queue c' = [KStr "b"; KStr "c"] /\
  storage c' !! KStr "c" = Some 3%nat /\
  lru_has (KStr "a") c' = false.
Proof.
  destruct (lru_set_full_evicts_head 2 (KStr "c") 3%nat lru_ab
              (KStr "a") [KStr "b"])
    as (Hq & Hnew & Hgone & _); try reflexivity.
  - refine (bool_decide_unpack _ _). vm_compute. exact I.
  - exact (conj Hq (conj Hnew (Hgone eq_refl))).
Defined.

Lemma lru_delete_frees_slot_witness :
  let c' := lru_set (KStr "c") 3%nat (snd (lru_delete (KStr "b") lru_ab)) in
  storage c' = <[KStr "c" := 3%nat]> (delete (KStr "b") (storage lru_ab)) /\
  length (queue c') = length (queue lru_ab) /\
  last (queue c') = Some (KStr "c").
Proof.
  apply (lru_delete_frees_slot 2 (KStr "b") (KStr "c") 3%nat lru_ab).
  - reflexivity.
  - vm_compute. lia.
  - apply lru_set_wf, lru_set_wf, lru_new_wf.
  - refine (bool_decide_unpack _ _). vm_compute. exact I.
  - refine (bool_decide_unpack _ _). vm_compute. exact I.
Defined.


Lemma ttl_replaces_timer_witness :
  let st := snd (invoke (H := test_host) cfg_second one_arg (init cfg_second)) in
  let st' := snd (applyTimeout 0 TFalse st) in
  scopes st' !! 0%nat = Some (mkScope (KStr "1/1") None) /\
  cache st' = cache st.
Proof.
  intros st st'. subst st'.
  destruct (ttl_replaces_timer 0 TFalse TFalse st
              (mkScope (KStr "1/1") (Some (mkTimeout thousand true))))
    as (Hsc & _ & Hcache & _); [reflexivity|].
  exact (conj Hsc Hcache).
Defined.

Lemma expiry_then_recompute_witness :
  let st1 := snd (invoke (H := test_host) cfg_second one_arg (init cfg_second)) in
  let st2 := snd (fire_timer 0 st1) in
  let r3 := invoke (H := test_host) cfg_second one_arg st2 in
  ic_has (key_of (H := test_host) cfg_second one_arg) (cache st2) = false /\
  fst r3 = Normal (VNum (num_of_nat 1)) /\
  calls (snd r3) = [one_arg; one_arg].
Proof.
  destruct (expiry_then_recompute (H := test_host) cfg_second one_arg
              (init cfg_second) (inject_Z 1000)
              (VNum (num_of_nat 0)) (VNum (num_of_nat 1)))
    as (_ & Hgone & Hret & Hcalls & _); try reflexivity.
  exact (conj Hgone (conj Hret Hcalls)).
Defined.

Lemma stale_timer_evicts_new_entry_witness :
  let st1 := snd (invoke (H := test_host) cfg_second one_arg (init cfg_second)) in
  let st2 := snd (clearCache (H := test_host) cfg_second one_arg st1) in
  let r3 := invoke (H := test_host) cfg_second one_arg st2 in
  let st4 := snd (fire_timer 0 (snd r3)) in
  fst r3 = Normal (VNum (num_of_nat 1)) /\
  ic_has (key_of (H := test_host) cfg_second one_arg) (cache (snd r3)) = true /\
  ic_has (key_of (H := test_host) cfg_second one_arg) (cache st4) = false.
Proof.
  destruct (stale_timer_evicts_new_entry (H := test_host) cfg_second
              one_arg one_arg (init cfg_second) (inject_Z 1000)
              (VNum (num_of_nat 0)) (VNum (num_of_nat 1)))
    as (_ & _ & Hret & Hin & Hout); try reflexivity.
  - right. reflexivity.
  - exact (conj Hret (conj Hin Hout)).
Defined.

Lemma observer_clear_throws_witness :
  let r := invoke (H := test_host) cfg_clearing one_arg (init cfg_clearing) in
  fst r = Throw TypeError /\
  calls (snd r) = [one_arg] /\
  ic_has (key_of (H := test_host) cfg_clearing one_arg) (cache (snd r)) = false.
Proof.
  apply (observer_clear_throws (H := test_host) cfg_clearing one_arg
           (init cfg_clearing) clearing_observer (VNum (num_of_nat 0)));
    try reflexivity.
  left.
Defined.

Lemma default_keys_type_blind_witness :
  key_of (H := test_host) cfg_second [VNull]
  = key_of (H := test_host) cfg_second [VStr "null"] /\
  key_of (H := test_host) cfg_second []
  = KNum (hash (Host := test_host) (VArr [])).
Proof.
  destruct (default_keys_type_blind (H := test_host) cfg_second)
    as [Hone Hmany]; [reflexivity|].
  split.
  - apply (Hone VNull). right. reflexivity.
  - apply (Hmany []). discriminate.
Defined.

Lemma bound_below_one_throws_witness :
  let r := invoke (H := test_host) cfg_negative_size one_arg
             (init cfg_negative_size) in
  fst r = Throw TypeError /\
  cache (snd r) = cache (init cfg_negative_size) /\
  calls (snd r) = [one_arg].
Proof.
  apply (bound_below_one_throws (H := test_host) cfg_negative_size one_arg
           (init cfg_negative_size) (mkLru ∅ [] (Fin (-1)))
           (VNum (num_of_nat 0))); reflexivity.
Defined.
